(** * Subtitle timing and file-name logic of sub_video.py

    A shallow embedding of [src/sub_video.py] (the timestamp formatter, the
    SRT and ASS writers, the model selector, the file-name sanitiser, the
    progress display and the pipeline), of [src/youtube_downloader.py] (the
    recognition and the normalisation of a URL, the end of the download) and
    of [src/clean_cache.py] (the size, the listing and the removal of cached
    models), together with the properties the specification states about
    them and further properties of the code.

    The file has three parts: the embedding of the code, the definitions the
    statements need, and the proofs. *)

From stdpp Require Import base gmap list.
From Stdlib Require Import ZArith Lia List Bool String Ascii Znumtheory.
From Stdlib Require Import DecimalString DecimalN DecimalFacts Floats.SpecFloat.
Import ListNotations.

(** ** Binary64 arithmetic

    Python's [float] is IEEE 754 binary64.  Every finite binary64 number is a
    whole multiple of the least subnormal [2^-1074], so a finite float is kept
    here as that multiple: [Fin n] stands for [n * 2^-1074], and [1.0] is
    [Fin (2^1074)].  An arithmetic operation is the exact operation on these
    integers (or on a fraction of them) followed by the IEEE rounding to
    nearest, ties to even, with 53 significant bits.

    The sign of zero is not represented.  This program observes a float only
    through [int()], comparisons and further arithmetic (never by printing it,
    by [copysign], or by dividing by it), and none of these tells the two
    zeros apart. *)
Module B64.
Local Open Scope Z_scope.

Inductive float : Type :=
| Fin (n : Z)
| Inf (neg : bool)
| NaN.

(** [1.0], and the first power of two that is out of range ([2^1024]). *)
Definition U : Z := 2 ^ 1074.
Definition HUGE : Z := 2 ^ 2098.

(** The integer nearest to [a / b] (for [0 < b]), ties to even. *)
Definition rne_div (a b : Z) : Z :=
  let q := a / b in
  match 2 * (a mod b) ?= b with
  | Lt => q
  | Gt => q + 1
  | Eq => if Z.even q then q else q + 1
  end.

(** The exponent (in ulps of the least subnormal) of the last significant bit
    of the binary64 numbers in the binade of [a / b]. *)
Definition cexp (a b : Z) : Z := Z.max (Z.log2 (Z.abs a / b) - 52) 0.

(** The fraction [a / b] (for [0 < b]) rounded to 53 significant bits, and
    its rounding to binary64, which overflows from [2^1024] on. *)
Definition rnd_val (a b : Z) : Z :=
  let ex := cexp a b in rne_div a (b * 2 ^ ex) * 2 ^ ex.

Definition rnd_div (a b : Z) : float :=
  let n := rnd_val a b in
  if HUGE <=? Z.abs n then Inf (n <? 0) else Fin n.

(** The largest finite binary64 number. *)
Definition MAXF : Z := HUGE - 2 ^ 2045.

Definition of_Z (z : Z) : float := rnd_div (z * U) 1.

Definition fopp (x : float) : float :=
  match x with
  | Fin n => Fin (- n)
  | Inf s => Inf (negb s)
  | NaN => NaN
  end.

Definition fadd (x y : float) : float :=
  match x, y with
  | NaN, _ | _, NaN => NaN
  | Inf s, Inf t => if Bool.eqb s t then Inf s else NaN
  | Inf s, Fin _ => Inf s
  | Fin _, Inf t => Inf t
  | Fin a, Fin b => rnd_div (a + b) 1
  end.

Definition fsub (x y : float) : float := fadd x (fopp y).

Definition fmul (x y : float) : float :=
  match x, y with
  | NaN, _ | _, NaN => NaN
  | Inf s, Inf t => Inf (xorb s t)
  | Inf s, Fin b => if b =? 0 then NaN else Inf (xorb s (b <? 0))
  | Fin a, Inf t => if a =? 0 then NaN else Inf (xorb (a <? 0) t)
  | Fin a, Fin b => rnd_div (a * b) U
  end.

(** Division.  Python tests the divisor against zero before it divides, so
    the case of a zero divisor (where the sign of zero would matter) is given
    the result for a positive zero and is never reached. *)
Definition fdiv (x y : float) : float :=
  match x, y with
  | NaN, _ | _, NaN => NaN
  | Inf _, Inf _ => NaN
  | Inf s, Fin b => Inf (xorb s (b <? 0))
  | Fin _, Inf _ => Fin 0
  | Fin a, Fin b =>
      if b =? 0 then (if a =? 0 then NaN else Inf (a <? 0))
      else if b <? 0 then rnd_div (- a * U) (- b)
      else rnd_div (a * U) b
  end.

(** C's [fmod]: exact, the result has the sign of the dividend. *)
Definition fmod (x y : float) : float :=
  match x, y with
  | NaN, _ | _, NaN => NaN
  | Inf _, _ => NaN
  | Fin a, Inf _ => Fin a
  | Fin a, Fin b => if b =? 0 then NaN else Fin (Z.rem a b)
  end.

(** C's [floor]. *)
Definition ffloor (x : float) : float :=
  match x with
  | Fin a => Fin (a / U * U)
  | _ => x
  end.

Definition flt (x y : float) : bool :=
  match x, y with
  | NaN, _ | _, NaN => false
  | Fin a, Fin b => a <? b
  | Fin _, Inf t => negb t
  | Inf s, Fin _ => s
  | Inf s, Inf t => s && negb t
  end.

Definition fgt (x y : float) : bool := flt y x.

(** The order of the extended reals, on the floats that are numbers. *)
Definition fle (x y : float) : Prop :=
  match x, y with
  | NaN, _ | _, NaN => False
  | Inf true, _ | _, Inf false => True
  | Fin a, Fin b => a <= b
  | _, _ => False
  end.

(** [x != 0.0], the truth value of a C double. *)
Definition nonzero (x : float) : bool :=
  match x with
  | Fin a => negb (a =? 0)
  | _ => true
  end.

(** A finite float that is a binary64 number: at most 53 significant bits
    and below [2^1024]. *)
Definition b64 (n : Z) : Prop :=
  Z.abs n < HUGE /\ n mod 2 ^ cexp n 1 = 0.

Definition finite (x : float) : Prop :=
  match x with
  | Fin n => b64 n
  | _ => False
  end.

(** The literal [p / 10^k] (a decimal literal of the source), correctly
    rounded as Python's parser does. *)
Definition dec_lit (p : Z) (k : Z) : float := rnd_div (p * U) (10 ^ k).

(** The same number as a [spec_float] of the standard library's IEEE
    specification, to compare the operations above with that specification. *)
Definition to_SF (x : float) : spec_float :=
  match x with
  | Fin n => binary_normalize 53 1024 n (-1074) false
  | Inf s => S754_infinity s
  | NaN => S754_nan
  end.

End B64.

(** ** The Python operations the program uses *)
Module Py.
Import B64.
Local Open Scope Z_scope.

(** Exceptions.  [ExternalError] stands for whatever a collaborator (the
    transcoder, the model, the file system) raises. *)
Inductive exn : Type :=
| ValueError
| OverflowError
| ZeroDivisionError
| FileNotFoundError
| IsADirectoryError
| ExternalError.

Inductive res (A : Type) : Type :=
| Ok (a : A)
| Raise (e : exn).
Arguments Ok {A} a.
Arguments Raise {A} e.

Definition bind {A B : Type} (m : res A) (k : A -> res B) : res B :=
  match m with
  | Ok a => k a
  | Raise e => Raise e
  end.

Notation "'let!' x ':=' m 'in' k" := (bind m (fun x => k))
  (at level 10, x name, m at level 100, k at level 200).

(** *** Floats *)

Definition zero : float := Fin 0.
Definition one : float := Fin U.
Definition half : float := Fin (U / 2).

(** [float(z)] for a Python int [z]; ints beyond the range raise. *)
Definition float_of_int (z : Z) : res float :=
  match of_Z z with
  | Inf _ => Raise OverflowError
  | x => Ok x
  end.

(** [int(x)]: truncation towards zero. *)
Definition int (x : float) : res Z :=
  match x with
  | Fin n => Ok (Z.quot n U)
  | Inf _ => Raise OverflowError
  | NaN => Raise ValueError
  end.

(** The end of [_float_div_mod] of CPython's floatobject.c: "snap quotient
    to nearest integral value". *)
Definition snap_quotient (div : float) : float :=
  if nonzero div then
    let fl := ffloor div in
    if fgt (fsub div fl) half then fadd fl one else fl
  else zero.

(** [_float_div_mod], which [//] and [%] on floats run; the pair is
    (floor quotient, remainder). *)
Definition float_div_mod (vx wx : float) : float * float :=
  let mod0 := fmod vx wx in
  let div0 := fdiv (fsub vx mod0) wx in
  let '(mod1, div1) :=
    if nonzero mod0 then
      (* ensure the remainder has the same sign as the denominator *)
      if negb (Bool.eqb (flt wx zero) (flt mod0 zero))
      then (fadd mod0 wx, fsub div0 one)
      else (mod0, div0)
    else (zero, div0) in
  (snap_quotient div1, mod1).

(** [vx // wx] *)
Definition floordiv (vx wx : float) : res float :=
  if nonzero wx then Ok (fst (float_div_mod vx wx)) else Raise ZeroDivisionError.

(** [vx % wx] *)
Definition rem (vx wx : float) : res float :=
  if nonzero wx then Ok (snd (float_div_mod vx wx)) else Raise ZeroDivisionError.

(** [x - z] and [x * z] for a float [x] and an int [z]. *)
Definition sub_int (x : float) (z : Z) : res float :=
  let! y := float_of_int z in Ok (fsub x y).

Definition mul_int (x : float) (z : Z) : res float :=
  let! y := float_of_int z in Ok (fmul x y).

(** [z * x] for an int [z] and a float [x]. *)
Definition int_mul (z : Z) (x : float) : res float :=
  let! y := float_of_int z in Ok (fmul y x).

(** [z < x] for an int [z] and a float [x]: Python compares the exact
    values. *)
Definition int_lt_float (z : Z) (x : float) : bool :=
  match x with
  | Fin n => z * U <? n
  | Inf s => negb s
  | NaN => false
  end.

(** *** Strings

    A [str] is its sequence of code points. *)
Definition str : Type := list N.

Definition lit (s : string) : str := map N_of_ascii (list_ascii_of_string s).
Arguments lit s%_string.

Definition str_eqb (a b : str) : bool := bool_decide (a = b).

(** [s.replace(old, new)] for a one-character [old]. *)
Definition replace_char (old : N) (new : str) (s : str) : str :=
  flat_map (fun c => if N.eqb c old then new else [c]) s.

(** The code points [str.isspace] accepts, which [strip] removes. *)
Definition is_space (c : N) : bool :=
  ((9 <=? c) && (c <=? 13) || (28 <=? c) && (c <=? 32)
   || (c =? 133) || (c =? 160) || (c =? 5760)
   || (8192 <=? c) && (c <=? 8202)
   || (c =? 8232) || (c =? 8233) || (c =? 8239) || (c =? 8287)
   || (c =? 12288))%N.

Fixpoint lstrip (s : str) : str :=
  match s with
  | c :: s' => if is_space c then lstrip s' else s
  | [] => []
  end.

Definition rstrip (s : str) : str := rev (lstrip (rev s)).

Definition strip (s : str) : str := rstrip (lstrip s).

(** [str(n)] for a natural number. *)
Definition digits (n : N) : str :=
  lit (DecimalString.NilZero.string_of_uint (N.to_uint n)).

(** [str(z)] and [f"{z}"] for an int. *)
Definition str_of_int (z : Z) : str :=
  if z <? 0 then lit "-" ++ digits (Z.abs_N z) else digits (Z.abs_N z).

(** [f"{z:0wd}"]: the sign first, then zeros up to the width [w]. *)
Definition fmt_0d (w : nat) (z : Z) : str :=
  let d := digits (Z.abs_N z) in
  if z <? 0
  then lit "-" ++ repeat 48%N (w - 1 - List.length d) ++ d
  else repeat 48%N (w - List.length d) ++ d.

(** [f"{x:.3f}"] for a finite float: the exact value rounded to thousandths,
    ties to even. *)
Definition fmt_3f (x : float) : str :=
  match x with
  | Fin n =>
      let t := rne_div (Z.abs n * 1000) U in
      (if n <? 0 then lit "-" else [])
      ++ digits (Z.to_N (t / 1000)) ++ lit "." ++ fmt_0d 3 (t mod 1000)
  | Inf s => if s then lit "-inf" else lit "inf"
  | NaN => lit "nan"
  end.

End Py.

(** ** The program: src/sub_video.py *)
Import B64 Py.
Local Open Scope Z_scope.
Local Open Scope list_scope.

Definition nl : str := [10%N].

(** [ASS_COLORS] *)
Definition ASS_COLORS : gmap str str :=
  list_to_map
    [ (lit "yellow", lit "&H00FFFF&");
      (lit "white", lit "&HFFFFFF&");
      (lit "blue", lit "&HFF0000&");
      (lit "green", lit "&H00FF00&");
      (lit "red", lit "&H0000FF&");
      (lit "cyan", lit "&HFFFF00&");
      (lit "magenta", lit "&HFF00FF&");
      (lit "black", lit "&H000000&") ].

(** The characters of the literal [invalid_chars]: < > : (double quote) / \ | ? * *)
Definition invalid_chars : str := [60; 62; 58; 34; 47; 92; 124; 63; 42]%N.

(** [re.sub(r'[^\x00-\x7F]+', repl, s)]: every maximal run of code points
    above 127 becomes one [repl]; [in_run] tells that the previous character
    belonged to such a run. *)
Fixpoint re_sub_non_ascii (repl : str) (in_run : bool) (s : str) : str :=
  match s with
  | [] => []
  | c :: s' =>
      if (127 <? c)%N
      then (if in_run then [] else repl) ++ re_sub_non_ascii repl true s'
      else c :: re_sub_non_ascii repl false s'
  end.

Definition sanitize_filename (filename : str) : str :=
  (* Replace invalid filename characters with underscore *)
  let filename :=
    fold_left (fun filename char => replace_char char (lit "_") filename)
              invalid_chars filename in
  (* Replace spaces with underscores *)
  let filename := replace_char 32%N (lit "_") filename in
  (* Remove any non-ASCII characters *)
  let filename := re_sub_non_ascii (lit "_") false filename in
  (* Limit length *)
  if (100 <? List.length filename)%nat then firstn 100 filename else filename.

Definition format_timestamp (seconds : float) (format_type : str) : res str :=
  let! q := floordiv seconds (of_Z 3600) in
  let! hours := int q in
  let! r := rem seconds (of_Z 3600) in
  let! q' := floordiv r (of_Z 60) in
  let! minutes := int q' in
  let! secs := rem seconds (of_Z 60) in
  if str_eqb format_type (lit "srt") then
    (* SRT format: HH:MM:SS,mmm *)
    let! isecs := int secs in
    let! frac := sub_int secs isecs in
    let! ms := mul_int frac 1000 in
    let! milliseconds := int ms in
    Ok (fmt_0d 2 hours ++ lit ":" ++ fmt_0d 2 minutes ++ lit ":"
        ++ fmt_0d 2 isecs ++ lit "," ++ fmt_0d 3 milliseconds)
  else if str_eqb format_type (lit "ass") then
    (* ASS format: H:MM:SS.cc *)
    let! isecs := int secs in
    let! frac := sub_int secs isecs in
    let! cs := mul_int frac 100 in
    let! centiseconds := int cs in
    Ok (str_of_int hours ++ lit ":" ++ fmt_0d 2 minutes ++ lit ":"
        ++ fmt_0d 2 isecs ++ lit "." ++ fmt_0d 2 centiseconds)
  else
    Ok (fmt_0d 2 hours ++ lit ":" ++ fmt_0d 2 minutes ++ lit ":" ++ fmt_3f secs).

(** A word of a segment, as the transcription collaborator hands it over. *)
Module Word.
Record t : Type := mk { start : float; end_ : float; word : str }.
End Word.

(** A segment; [words] is [None] when the attribute is missing or [None]. *)
Module Segment.
Record t : Type :=
  mk { start : float; end_ : float; text : str; words : option (list Word.t) }.
End Segment.

(** A text file opened with mode ['w']: the characters written so far. *)
Definition file : Type := str.

Definition write (s : str) (f : file) : file := f ++ s.

(** The body of the loop of [create_srt] for the segment numbered [i]. *)
Definition srt_block (i : Z) (segment : Segment.t) : res str :=
  let! start_time := format_timestamp (Segment.start segment) (lit "srt") in
  let! end_time := format_timestamp (Segment.end_ segment) (lit "srt") in
  let text := strip (Segment.text segment) in
  Ok (str_of_int i ++ nl ++ start_time ++ lit " --> " ++ end_time ++ nl
      ++ text ++ nl ++ nl).

(** The loop over [enumerate(segments, start=i)]; an exception leaves the
    file as it was written so far. *)
Fixpoint srt_loop (i : Z) (segments : list Segment.t) (f : file) : file * res unit :=
  match segments with
  | [] => (f, Ok tt)
  | segment :: rest =>
      match srt_block i segment with
      | Ok block => srt_loop (i + 1) rest (write block f)
      | Raise e => (f, Raise e)
      end
  end.

(** [create_srt]: the content of the file at [output_path] when the call
    ends, and how it ends. *)
Definition create_srt (segments : list Segment.t) : file * res unit :=
  srt_loop 1 segments [].

(** The karaoke loop over the words of a segment: the text built so far and
    the end of the previous word are the state. *)
Fixpoint karaoke_loop (ws : list Word.t) (words_text : str) (last_end : float)
  : res str :=
  match ws with
  | [] => Ok words_text
  | word :: rest =>
      (* Calculate timing for karaoke effect *)
      let word_duration := fsub (Word.end_ word) (Word.start word) in
      let delay := fsub (Word.start word) last_end in
      let! words_text :=
        if flt zero delay then
          (* Add delay before current word *)
          let! d := mul_int delay 100 in
          let! k := int d in
          Ok (words_text ++ lit "{\k" ++ str_of_int k ++ lit "} ")
        else Ok words_text in
      (* Add the word with karaoke timing *)
      let! d := mul_int word_duration 100 in
      let! k := int d in
      karaoke_loop rest
        (words_text ++ lit "{\k" ++ str_of_int k ++ lit "}" ++ Word.word word ++ lit " ")
        (Word.end_ word)
  end.

(** The dialogue line of one segment. *)
Definition ass_dialogue (karaoke : bool) (style : str) (segment : Segment.t)
  : res str :=
  let! start_time := format_timestamp (Segment.start segment) (lit "ass") in
  let! end_time := format_timestamp (Segment.end_ segment) (lit "ass") in
  let text := strip (Segment.text segment) in
  match (if karaoke then Segment.words segment else None) with
  | Some (w :: ws) =>
      (* Create karaoke effect if word timestamps are available *)
      let! words_text := karaoke_loop (w :: ws) [] (Segment.start segment) in
      Ok (lit "Dialogue: 0," ++ start_time ++ lit "," ++ end_time
          ++ lit ",Karaoke,,0,0,0,," ++ strip words_text ++ nl)
  | _ =>
      (* Regular subtitle without karaoke effect *)
      Ok (lit "Dialogue: 0," ++ start_time ++ lit "," ++ end_time ++ lit ","
          ++ style ++ lit ",,0,0,0,," ++ text ++ nl)
  end.

Fixpoint ass_loop (karaoke : bool) (style : str) (segments : list Segment.t)
  (f : file) : file * res unit :=
  match segments with
  | [] => (f, Ok tt)
  | segment :: rest =>
      match ass_dialogue karaoke style segment with
      | Ok line => ass_loop karaoke style rest (write line f)
      | Raise e => (f, Raise e)
      end
  end.

(** A style definition, without the line break that ends it. *)
Definition ass_style (name ass_color : str) : str :=
  lit "Style: " ++ name ++ lit ",Arial,48," ++ ass_color
  ++ lit ",&HFFFFFF&,&H000000&,&H000000&,0,0,0,0,100,100,0,0,1,2,2,2,20,20,20,1".

(** Everything [create_ass] writes before the dialogue lines. *)
Definition ass_header (title ass_color : str) : str :=
  lit "[Script Info]" ++ nl
  ++ lit "Title: " ++ title ++ nl
  ++ lit "ScriptType: v4.00+" ++ nl
  ++ lit "WrapStyle: 0" ++ nl
  ++ lit "ScaledBorderAndShadow: yes" ++ nl
  ++ lit "YCbCr Matrix: None" ++ nl
  ++ lit "PlayResX: 1920" ++ nl
  ++ lit "PlayResY: 1080" ++ nl ++ nl
  ++ lit "[V4+ Styles]" ++ nl
  ++ lit "Format: Name, Fontname, Fontsize, PrimaryColour, SecondaryColour, OutlineColour, BackColour, Bold, Italic, Underline, StrikeOut, ScaleX, ScaleY, Spacing, Angle, BorderStyle, Outline, Shadow, Alignment, MarginL, MarginR, MarginV, Encoding" ++ nl
  (* Default style *)
  ++ ass_style (lit "Default") ass_color ++ nl
  (* Karaoke style *)
  ++ ass_style (lit "Karaoke") ass_color ++ nl ++ nl
  ++ lit "[Events]" ++ nl
  ++ lit "Format: Layer, Start, End, Style, Name, MarginL, MarginR, MarginV, Effect, Text" ++ nl.

(** [create_ass].  [str_lower] is Python's [str.lower], whose Unicode case
    table is not part of the repository. *)
Definition create_ass (str_lower : str -> str) (segments : list Segment.t)
  (title : str) (karaoke : bool) (style : str) (color : str) : file * res unit :=
  let ass_color :=
    default (ASS_COLORS !!! lit "white") (ASS_COLORS !! str_lower color) in
  ass_loop karaoke style segments (write (ass_header title ass_color) []).

(** [str.lower] on the ASCII letters. *)
Definition ascii_lower (s : str) : str :=
  map (fun c => if (65 <=? c)%N && (c <=? 90)%N then (c + 32)%N else c) s.

(** [model_sizes], in the order the dictionary is written; the footprint of
    "medium" is the float [2.5 * 1024 * 1024 * 1024], a whole number that the
    comparisons below take at its exact value as Python does. *)
Definition model_sizes : list (str * Z) :=
  [ (lit "large", 6 * 1024 * 1024 * 1024);
    (lit "medium", 5 * 512 * 1024 * 1024);
    (lit "small", 1 * 1024 * 1024 * 1024);
    (lit "base", 500 * 1024 * 1024);
    (lit "tiny", 150 * 1024 * 1024) ].

(** [sorted(items, key=lambda x: x[1], reverse=True)]: a stable sort by
    decreasing footprint. *)
Fixpoint insert_desc (x : str * Z) (l : list (str * Z)) : list (str * Z) :=
  match l with
  | [] => [x]
  | y :: l' => if snd y <=? snd x then x :: l else y :: insert_desc x l'
  end.

Definition sorted_desc (l : list (str * Z)) : list (str * Z) :=
  fold_right insert_desc [] l.

Fixpoint first_fitting (l : list (str * Z)) (available_with_headroom : float)
  : option str :=
  match l with
  | [] => None
  | (model, size) :: l' =>
      if int_lt_float size available_with_headroom then Some model
      else first_fitting l' available_with_headroom
  end.

(** [auto_select_model]; [get_memory_info] is the result of the query of the
    operating system for the available memory. *)
Definition auto_select_model (get_memory_info : res Z)
  (memory_available : option Z) : res str :=
  let after m :=
    (* We leave some headroom (use 70% of available memory) *)
    let! available_with_headroom := int_mul m (dec_lit 7 1) in
    Ok (default (lit "tiny")
          (first_fitting (sorted_desc model_sizes) available_with_headroom)) in
  match memory_available with
  | Some m => after m
  | None =>
      match get_memory_info with
      | Ok m => after m
      | Raise _ => Ok (lit "medium")
      end
  end.


(** ** The pipeline and the definitions of the statements *)

(** Two and three decimal digits, as the specification writes the fields. *)
Definition digit (k : Z) : N := Z.to_N (48 + k).

Definition dd (n : Z) : str := [digit (n / 10); digit (n mod 10)].

Definition ddd (n : Z) : str := [digit (n / 100); digit (n / 10 mod 10); digit (n mod 10)].

(** *** Lines of a file *)

Definition LF : N := 10%N.

(** [s.split("\n")] *)
Fixpoint lines (s : str) : list str :=
  match s with
  | [] => [[]]
  | c :: s' =>
      if (c =? LF)%N then [] :: lines s'
      else match lines s' with
           | l :: ls => (c :: l) :: ls
           | [] => [[c]]
           end
  end.

(** [s.startswith(p)] *)
Fixpoint starts_with (p s : str) : bool :=
  match p, s with
  | [], _ => true
  | a :: p', b :: s' => (a =? b)%N && starts_with p' s'
  | _ :: _, [] => false
  end.


Definition single_line (s : str) : Prop := ~ In LF s.


(** *** Characters of the formatted numbers *)




Definition seg (start end_ : float) (text : string) : Segment.t :=
  Segment.mk start end_ (lit text) None.

(** *** The karaoke text, word by word *)

(** What one word contributes: a tag for the gap since [last_end] when the
    gap is positive, then the tag of the word's duration and the word. *)
Definition karaoke_fragment (last_end : float) (word : Word.t) : res str :=
  let gap := fsub (Word.start word) last_end in
  let! gap_tag :=
    if flt zero gap then
      let! d := mul_int gap 100 in
      let! k := int d in
      Ok (lit "{\k" ++ str_of_int k ++ lit "} ")
    else Ok [] in
  let! d := mul_int (fsub (Word.end_ word) (Word.start word)) 100 in
  let! k := int d in
  Ok (gap_tag ++ lit "{\k" ++ str_of_int k ++ lit "}" ++ Word.word word ++ lit " ").


(** A time the karaoke arithmetic cannot overflow on: a binary64 number of
    at most [2^1000] seconds in magnitude. *)
Definition time_ok (x : float) : Prop :=
  match x with
  | Fin n => b64 n /\ Z.abs n <= 2 ^ 1000 * U
  | _ => False
  end.

Definition word_times_ok (word : Word.t) : Prop :=
  time_ok (Word.start word) /\ time_ok (Word.end_ word).






(** *** The model selector *)

(** The first model of a table whose footprint is strictly below seven
    tenths of [m], as the specification words the policy. *)
Definition first_below_headroom (table : list (str * Z)) (m : Z) : option str :=
  fst <$> List.find (fun entry => 10 * snd entry <? 7 * m) table.

(** The ints that [float()] converts: those that round below [2^1024]. *)
Definition FLOAT_INT_BOUND : Z := 2 ^ 1024 - 2 ^ 970.

(** [0.7 * m] as the code computes it, before the overflow test. *)
Definition headroom_val (m : Z) : Z :=
  rnd_val (rnd_val (m * U) 1 * rnd_val (7 * U) (10 ^ 1)) U.

(** *** The file-name sanitiser *)

Definition UNDERSCORE : N := 95%N.

(** ASCII letters, digits and the underscore. *)
Definition is_word_char (c : N) : bool :=
  ((48 <=? c) && (c <=? 57) || (65 <=? c) && (c <=? 90)
   || (97 <=? c) && (c <=? 122) || (c =? 95))%N.

(** What the sanitiser leaves: ASCII, none of the nine invalid characters,
    no space. *)
Definition clean_char (c : N) : Prop :=
  (c <= 127)%N /\ ~ In c invalid_chars /\ c <> 32%N.

Definition replace_all (chars : str) (s : str) : str :=
  fold_left (fun filename char => replace_char char (lit "_") filename) chars s.

(** ** The pipeline: [process_media] *)

(** The file system: what lies at each path. *)
Inductive node : Type :=
| File (content : str)
| Dir.

Abbreviation filesystem := (gmap str node).

(** A call that acts on the file system and may raise. *)
Definition eff (A : Type) : Type := filesystem -> filesystem * res A.

Definition eret {A : Type} (a : A) : eff A := fun fs => (fs, Ok a).

Definition ebind {A B : Type} (m : eff A) (k : A -> eff B) : eff B :=
  fun fs =>
    match m fs with
    | (fs', Ok a) => k a fs'
    | (fs', Raise e) => (fs', Raise e)
    end.

Notation "'let*' x ':=' m 'in' k" := (ebind m (fun x => k))
  (at level 10, x name, m at level 100, k at level 200).

(** [os.path.exists] *)
Definition path_exists (p : str) (fs : filesystem) : bool :=
  bool_decide (is_Some (fs !! p)).

(** [os.remove]: only a file can be removed. *)
Definition os_remove (p : str) : eff unit :=
  fun fs =>
    match fs !! p with
    | Some (File _) => (delete p fs, Ok tt)
    | Some Dir => (fs, Raise IsADirectoryError)
    | None => (fs, Raise FileNotFoundError)
    end.

(** [with open(path, 'w') as f: ...] around a writer: the file holds what
    the writer wrote, also when the writer raised.  A directory at the path
    makes [open] raise; other failures of [open] are not modelled. *)
Definition write_file (path : str) (written : file * res unit) : eff unit :=
  fun fs =>
    match fs !! path with
    | Some Dir => (fs, Raise IsADirectoryError)
    | _ => (<[path := File (fst written)]> fs, snd written)
    end.

(** [s.endswith(suffix)] *)
Definition ends_with (suffix s : str) : bool := starts_with (rev suffix) (rev s).

(** What [yt-dlp] and the search for its output file give (lines 51 to 130
    of [download_youtube_video], inside its [try]). *)
Inductive yt_result : Type :=
| YtFailed (message : str)
| YtOutput (output_file : option str).

(** The collaborators and library functions of the pipeline. *)
Record Env : Type := {
  is_youtube_url : str -> bool;
  yt_dlp : str -> str -> str -> filesystem -> filesystem * yt_result;
  makedirs : str -> eff unit;
  get_memory_info : res Z;
  MODEL_CACHE_DIR : str;
  download_model : str -> str -> eff unit;
  path_stem : str -> str;
  path_join : str -> str -> str;
  str_lower : str -> str;
  copy2 : str -> str -> eff unit;
  ffmpeg_run : str -> str -> eff unit;
  cuda_available : bool;
  is_mac : bool;
  is_arm : bool;
  transcribe :
    str -> str -> str -> str -> option str -> bool -> eff (list Segment.t)
}.

(** The end of [download_youtube_video]: a path is returned only when it is
    not empty and names something that exists. *)
Definition download_youtube_video (env : Env) (url output_dir resolution : str)
  : filesystem -> filesystem * (bool * str) :=
  fun fs =>
    match yt_dlp env url output_dir resolution fs with
    | (fs', YtFailed message) => (fs', (false, message))
    | (fs', YtOutput output_file) =>
        match output_file with
        | Some (c :: p) =>
            if path_exists (c :: p) fs' then (fs', (true, c :: p))
            else (fs', (false, lit "Could not determine the downloaded file path"))
        | _ => (fs', (false, lit "Could not determine the downloaded file path"))
        end
    end.

Definition detect_device_and_compute_type (env : Env)
  (requested_device requested_compute : str) : str * str :=
  let is_apple_silicon := is_mac env && is_arm env in
  (* Override with requested values if not auto *)
  let device :=
    if negb (str_eqb requested_device (lit "auto")) then requested_device
    else if cuda_available env then lit "cuda" else lit "cpu" in
  let compute_type :=
    if negb (str_eqb requested_compute (lit "auto")) then requested_compute
    else if str_eqb device (lit "cuda") then lit "float16"
    else if is_apple_silicon then lit "int8"
    else lit "int8" in
  (device, compute_type).

Definition is_model_cached (env : Env) (model_size : str) (fs : filesystem) : bool :=
  match fs !! path_join env (MODEL_CACHE_DIR env) model_size with
  | Some Dir => true
  | _ => false
  end.

Definition ensure_model_cached (env : Env) (model_size : str) : eff unit :=
  fun fs =>
    if negb (is_model_cached env model_size fs) then
      (let* _ := makedirs env (MODEL_CACHE_DIR env) in
       download_model env model_size (MODEL_CACHE_DIR env)) fs
    else (fs, Ok tt).

(** [extract_audio]: the transcoder's error is raised again. *)
Definition extract_audio (env : Env) (video_path output_path : str) : eff unit :=
  ffmpeg_run env video_path output_path.

Record Args : Type := {
  input_path : str;
  output_dir : str;
  model_size : str;
  language : option str;
  resolution : str;
  keep_video : bool;
  subtitle_formats : list str;
  karaoke : bool;
  device : str;
  compute_type : str;
  force_download : bool
}.

(** The paths a run has settled on when it reaches its clean-up. *)
Record Paths : Type := {
  downloaded_file : option str;
  media_path : str;
  temp_audio : str
}.

Inductive outcome : Type :=
| DownloadFailed (message : str)
| Completed (paths : Paths).

(** The truth value of [downloaded_file]. *)
Definition truthy (p : option str) : bool :=
  match p with
  | Some (_ :: _) => true
  | _ => false
  end.

(** "If input is a YouTube URL, download the video first": [None] when the
    download failed, else [downloaded_file] and the new [input_path]. *)
Definition resolve_input (env : Env) (a : Args) : eff (str + option str * str) :=
  fun fs =>
    if is_youtube_url env (input_path a) then
      match download_youtube_video env (input_path a) (output_dir a) (resolution a) fs with
      | (fs1, (false, result)) => (fs1, Ok (inl result))
      | (fs1, (true, result)) =>
          (* Create a sanitized copy of the file to avoid path issues *)
          let video_name := path_stem env result in
          let sanitized_name := sanitize_filename video_name in
          let sanitized_path :=
            path_join env (output_dir a) (sanitized_name ++ lit ".mp4") in
          if negb (str_eqb result sanitized_path) then
            (let* _ := copy2 env result sanitized_path in
             eret (inr (Some result, sanitized_path))) fs1
          else (fs1, Ok (inr (Some result, result)))
      end
    else (fs, Ok (inr (None, input_path a))).

(** The loop over [subtitle_formats]. *)
Fixpoint write_subtitles (env : Env) (a : Args) (segments_list : list Segment.t)
  (input_name sanitized_input_name : str) (formats : list str) : eff unit :=
  match formats with
  | [] => eret tt
  | fmt :: rest =>
      let* _ :=
        if str_eqb (str_lower env fmt) (lit "srt") then
          let srt_path :=
            path_join env (output_dir a) (sanitized_input_name ++ lit ".srt") in
          write_file srt_path (create_srt segments_list)
        else if str_eqb (str_lower env fmt) (lit "ass") then
          let ass_path :=
            path_join env (output_dir a) (sanitized_input_name ++ lit ".ass") in
          write_file ass_path
            (create_ass (str_lower env) segments_list input_name (karaoke a)
                        (lit "Default") (lit "white"))
        else eret tt in
      write_subtitles env a segments_list input_name sanitized_input_name rest
  end.

(** The clean-up at the end of [process_media]. *)
Definition cleanup (a : Args) (p : Paths) : eff unit :=
  (* Clean up temporary audio file if it was created *)
  let* _ := fun fs =>
    if path_exists (temp_audio p) fs then os_remove (temp_audio p) fs else (fs, Ok tt) in
  (* Clean up downloaded video if not keeping it *)
  if truthy (downloaded_file p) && negb (keep_video a) then
    let d := default [] (downloaded_file p) in
    let* _ := fun fs =>
      if path_exists d fs then os_remove d fs else (fs, Ok tt) in
    (* Also remove sanitized copy if it exists and is different *)
    fun fs =>
      if negb (str_eqb d (media_path p)) && path_exists (media_path p) fs
      then os_remove (media_path p) fs else (fs, Ok tt)
  else eret tt.

Definition process_media (env : Env) (a : Args) : eff outcome :=
  (* Create output directory if it doesn't exist *)
  let* _ := makedirs env (output_dir a) in
  (* If auto model selection, detect best model size *)
  let model_size :=
    if str_eqb (model_size a) (lit "auto") then
      match auto_select_model (get_memory_info env) None with
      | Ok m => m
      | Raise _ => lit "medium"  (* Fall back to medium *)
      end
    else model_size a in
  let* _ := fun fs =>
    if negb (force_download a) && is_model_cached env model_size fs then (fs, Ok tt)
    else ensure_model_cached env model_size fs in
  let* resolved := resolve_input env a in
  match resolved with
  | inl message => eret (DownloadFailed message)
  | inr (downloaded_file, input_path) =>
      (* Get input file name without extension *)
      let input_name := path_stem env input_path in
      let sanitized_input_name := sanitize_filename input_name in
      (* Extract audio if input is video *)
      let temp_audio :=
        path_join env (output_dir a) (sanitized_input_name ++ lit "_temp.wav") in
      let is_video :=
        existsb (fun ext => ends_with ext (str_lower env input_path))
                [lit ".mp4"; lit ".avi"; lit ".mkv"; lit ".mov"] in
      let* audio_path :=
        if is_video then
          let* _ := extract_audio env input_path temp_audio in eret temp_audio
        else eret input_path in
      let '(device, compute_type) :=
        detect_device_and_compute_type env (device a) (compute_type a) in
      let word_timestamps :=
        existsb (str_eqb (lit "ass")) (subtitle_formats a) && karaoke a in
      let* segments_list :=
        transcribe env model_size device compute_type audio_path (language a)
                   word_timestamps in
      let* _ :=
        write_subtitles env a segments_list input_name sanitized_input_name
                        (subtitle_formats a) in
      let paths := {| downloaded_file := downloaded_file;
                      media_path := input_path;
                      temp_audio := temp_audio |} in
      let* _ := cleanup a paths in
      eret (Completed paths)
  end.

(** A small world to run the pipeline in: every collaborator succeeds, the
    download leaves [out/my video.mp4], the transcoder writes its output
    file, the model hears one segment. *)
Definition demo_env : Env := {|
  is_youtube_url := starts_with (lit "https://");
  yt_dlp := fun url output_dir resolution fs =>
    (<[lit "out/my video.mp4" := File (lit "video")]> fs,
     YtOutput (Some (lit "out/my video.mp4")));
  makedirs := fun d fs => (<[d := Dir]> fs, Ok tt);
  get_memory_info := Ok (8 * 1024 ^ 3)%Z;
  MODEL_CACHE_DIR := lit "cache";
  download_model := fun model d fs => (<[d ++ lit "/" ++ model := Dir]> fs, Ok tt);
  path_stem := fun p =>
    if str_eqb p (lit "out/my video.mp4") then lit "my video" else lit "my_video";
  path_join := fun a b => a ++ lit "/" ++ b;
  str_lower := ascii_lower;
  copy2 := fun src dst fs =>
    match fs !! src with
    | Some n => (<[dst := n]> fs, Ok tt)
    | None => (fs, Raise FileNotFoundError)
    end;
  ffmpeg_run := fun video output fs => (<[output := File (lit "audio")]> fs, Ok tt);
  cuda_available := false;
  is_mac := false;
  is_arm := false;
  transcribe := fun model device compute audio language word_timestamps fs =>
    (fs, Ok [seg (of_Z 0) (of_Z 1) " hello "])
|}.

Definition demo_args : Args := {|
  input_path := lit "https://www.youtube.com/watch?v=abcdefghijk";
  output_dir := lit "out";
  model_size := lit "auto";
  language := None;
  resolution := lit "720p";
  keep_video := false;
  subtitle_formats := [lit "srt"; lit "ass"];
  karaoke := false;
  device := lit "auto";
  compute_type := lit "auto";
  force_download := false
|}.

(** *** More on [sanitize_filename] *)

(** What the sanitiser does to one ASCII character. *)
Definition sanitize_char (c : N) : N :=
  if existsb (N.eqb c) invalid_chars || (c =? 32)%N then UNDERSCORE else c.

(** *** The writers on a list that is cut in two, and on a bad time *)


(** A segment without its words, as [create_ass] sees it when the karaoke
    effect is off or when the word list is empty. *)
Definition without_words (karaoke : bool) (segment : Segment.t) : Segment.t :=
  match (if karaoke then Segment.words segment else None) with
  | Some (_ :: _) => segment
  | _ => Segment.mk (Segment.start segment) (Segment.end_ segment)
                    (Segment.text segment) None
  end.

(** *** More on [auto_select_model] *)

(** The footprint the table gives a model name (0 for a name it lacks). *)
Definition footprint (model : str) : Z :=
  default 0 (snd <$> List.find (fun entry => str_eqb (fst entry) model) model_sizes).

(** *** More on the pipeline *)

(** The arguments with another [force_download]. *)
Definition with_force_download (b : bool) (a : Args) : Args :=
  {| input_path := input_path a; output_dir := output_dir a;
     model_size := model_size a; language := language a;
     resolution := resolution a; keep_video := keep_video a;
     subtitle_formats := subtitle_formats a; karaoke := karaoke a;
     device := device a; compute_type := compute_type a;
     force_download := b |}.

(** The two paths the loop over the formats writes to. *)
Definition srt_path_of (env : Env) (a : Args) (sanitized_input_name : str) : str :=
  path_join env (output_dir a) (sanitized_input_name ++ lit ".srt").

Definition ass_path_of (env : Env) (a : Args) (sanitized_input_name : str) : str :=
  path_join env (output_dir a) (sanitized_input_name ++ lit ".ass").

(** *** What the pipeline writes, and what it does when the download fails *)

(** A format that the loop takes for SRT. *)
Definition is_srt (env : Env) (fmt : str) : bool :=
  str_eqb (str_lower env fmt) (lit "srt").

(** The same world as [demo_env], with a download tool that fails. *)
Definition failing_env : Env := {|
  is_youtube_url := is_youtube_url demo_env;
  yt_dlp := fun url output_dir resolution fs => (fs, YtFailed (lit "yt-dlp error: "));
  makedirs := makedirs demo_env;
  get_memory_info := get_memory_info demo_env;
  MODEL_CACHE_DIR := MODEL_CACHE_DIR demo_env;
  download_model := download_model demo_env;
  path_stem := path_stem demo_env;
  path_join := path_join demo_env;
  str_lower := str_lower demo_env;
  copy2 := copy2 demo_env;
  ffmpeg_run := ffmpeg_run demo_env;
  cuda_available := cuda_available demo_env;
  is_mac := is_mac demo_env;
  is_arm := is_arm demo_env;
  transcribe := transcribe demo_env
|}.

(** ** The progress display: [ProgressTracker] *)

(** [a / b] for two ints: the quotient rounded once, to the nearest
    binary64 number. *)
Definition int_truediv (a b : Z) : res float :=
  if b =? 0 then Raise ZeroDivisionError
  else
    match (if b <? 0 then rnd_div (- a * U) (- b) else rnd_div (a * U) b) with
    | Inf _ => Raise OverflowError
    | x => Ok x
    end.

(** [f"{a / b:.1f}"] for two ints: the quotient as a float, then its exact
    value rounded to tenths, ties to even.  The text shows the sign bit of
    the quotient, which [float] does not keep for a zero: the division sets
    it when exactly one of [a] and [b] is negative. *)
Definition fmt_quot_1f (a b : Z) : res str :=
  let! x := int_truediv a b in
  match x with
  | Fin n =>
      let t := rne_div (Z.abs n * 10) U in
      Ok ((if xorb (a <? 0) (b <? 0) then lit "-" else [])
          ++ digits (Z.to_N (t / 10)) ++ lit "." ++ fmt_0d 1 (t mod 10))
  | Inf s => Ok (if s then lit "-inf" else lit "inf")
  | NaN => Ok (lit "nan")
  end.

(** The fields of a tracker that its methods read; the clock readings
    [start_time] and [step_start_time] are left out. *)
Module ProgressTracker.
Record t : Type :=
  mk { total_steps : Z; current_step : Z; verbose : bool; step_name : str }.
End ProgressTracker.

(** [start_step]: the tracker afterwards, and what was printed. *)
Definition start_step (self : ProgressTracker.t) (step_name : str)
  : ProgressTracker.t * str :=
  let self :=
    ProgressTracker.mk (ProgressTracker.total_steps self)
                       (ProgressTracker.current_step self + 1)
                       (ProgressTracker.verbose self) step_name in
  (self,
   if ProgressTracker.verbose self then
     nl ++ lit "[" ++ str_of_int (ProgressTracker.current_step self) ++ lit "/"
     ++ str_of_int (ProgressTracker.total_steps self) ++ lit "] " ++ step_name
     ++ lit "..." ++ nl
   else []).

(** The bar of [update_progress]: [progress] cells filled, the rest of the
    fifty blank; a negative count repeats nothing. *)
Definition progress_bar (progress : Z) : str :=
  repeat 35%N (Z.to_nat progress) ++ repeat 32%N (Z.to_nat (50 - progress)).

(** [update_progress]: what is written to the standard output. *)
Definition update_progress (self : ProgressTracker.t) (current total : Z) : res str :=
  if ProgressTracker.verbose self then
    let! q := int_truediv (current * 50) total in
    let! progress := int q in
    let! percent := fmt_quot_1f (current * 100) total in
    Ok ([13%N] ++ lit "[" ++ str_of_int (ProgressTracker.current_step self) ++ lit "/"
        ++ str_of_int (ProgressTracker.total_steps self) ++ lit "] "
        ++ ProgressTracker.step_name self ++ lit ": "
        ++ lit "[" ++ progress_bar progress ++ lit "] "
        ++ str_of_int current ++ lit "/" ++ str_of_int total ++ lit " "
        ++ lit "(" ++ percent ++ lit "%)")
  else Ok [].

(** ** src/youtube_downloader.py: recognising and normalising a URL *)

(** *** Regular expressions

    The patterns of this file are built from literals, character classes,
    sequence, alternation, the greedy [?], [+] and [{n}] on a class,
    groups and the two anchors.  [run] lists, in the order in which the
    backtracking matcher of [re] tries them, the ways a pattern matches at
    the start of a string: what is left of the string, and the groups. *)
Module Re.

Inductive t : Type :=
| Str (l : str)
| Cls (p : N -> bool)
| Seq (r1 r2 : t)
| Alt (r1 r2 : t)
| Opt (r : t)
| Plus (p : N -> bool)
| Rep (n : nat) (p : N -> bool)
| Grp (i : nat) (r : t)
| Bol
| Eol.

Definition captures : Type := list (nat * str).

(** [match.group(i)] *)
Definition group (i : nat) (caps : captures) : option str :=
  snd <$> List.find (fun e => Nat.eqb (fst e) i) caps.

(** What follows the literal [l] at the start of [s]. *)
Fixpoint strip_prefix (l s : str) : option str :=
  match l, s with
  | [], _ => Some s
  | a :: l', c :: s' => if N.eqb a c then strip_prefix l' s' else None
  | _ :: _, [] => None
  end.

(** What follows one or more characters of the class, the longest run
    first. *)
Fixpoint plus_class (p : N -> bool) (s : str) : list str :=
  match s with
  | c :: s' => if p c then plus_class p s' ++ [s'] else []
  | [] => []
  end.

(** What follows exactly [n] characters of the class. *)
Fixpoint rep_class (n : nat) (p : N -> bool) (s : str) : option str :=
  match n, s with
  | O, _ => Some s
  | S n', c :: s' => if p c then rep_class n' p s' else None
  | S _, [] => None
  end.

(** [whole] is the length of the whole string, by which [^] knows the
    start; [$] matches at the end and before a line break that ends the
    string. *)
Fixpoint run (r : t) (whole : nat) (s : str) (caps : captures)
  : list (str * captures) :=
  match r with
  | Str l =>
      match strip_prefix l s with
      | Some s' => [(s', caps)]
      | None => []
      end
  | Cls p =>
      match s with
      | c :: s' => if p c then [(s', caps)] else []
      | [] => []
      end
  | Seq r1 r2 =>
      flat_map (fun m => run r2 whole (fst m) (snd m)) (run r1 whole s caps)
  | Alt r1 r2 => run r1 whole s caps ++ run r2 whole s caps
  | Opt r' => run r' whole s caps ++ [(s, caps)]
  | Plus p => map (fun s' => (s', caps)) (plus_class p s)
  | Rep n p =>
      match rep_class n p s with
      | Some s' => [(s', caps)]
      | None => []
      end
  | Grp i r' =>
      map (fun m => (fst m, (i, firstn (List.length s - List.length (fst m)) s) :: snd m))
          (run r' whole s caps)
  | Bol => if Nat.eqb (List.length s) whole then [(s, caps)] else []
  | Eol => if str_eqb s [] || str_eqb s nl then [(s, caps)] else []
  end.

(** [re.match(r, s)]: the groups of the first way to match at the start. *)
Definition match_ (r : t) (s : str) : option captures :=
  snd <$> hd_error (run r (List.length s) s []).

(** [re.search(r, s)]: the first way to match at the first position that
    has one. *)
Fixpoint search_from (r : t) (whole : nat) (s : str) : option captures :=
  match hd_error (run r whole s []) with
  | Some m => Some (snd m)
  | None =>
      match s with
      | [] => None
      | _ :: s' => search_from r whole s'
      end
  end.

Definition search (r : t) (s : str) : option captures :=
  search_from r (List.length s) s.

End Re.

(** The functions of the file. *)
Module youtube_downloader.

(** [.]: any character but the line break. *)
Definition dot (c : N) : bool := negb (c =? 10)%N.

(** [[^&=%\?]] *)
Definition not_separator (c : N) : bool :=
  negb (existsb (N.eqb c) [38; 61; 37; 63]%N).

(** [[\w\-]]: the ASCII word characters, the characters beyond ASCII that
    Python's Unicode tables count as alphanumeric ([unicode_alnum], which is
    not part of the repository), and the hyphen. *)
Definition id_char (unicode_alnum : N -> bool) (c : N) : bool :=
  (if (c <=? 127)%N then is_word_char c else unicode_alnum c) || (c =? 45)%N.

(** [\S] *)
Definition non_space (c : N) : bool := negb (is_space c).

(** [youtube_regex] *)
Definition youtube_regex : Re.t :=
  Re.Seq (Re.Opt (Re.Grp 1 (Re.Seq (Re.Str (lit "http"))
                              (Re.Seq (Re.Opt (Re.Str (lit "s"))) (Re.Str (lit "://"))))))
 (Re.Seq (Re.Opt (Re.Grp 2 (Re.Str (lit "www."))))
 (Re.Seq (Re.Grp 3 (Re.Alt (Re.Str (lit "youtube"))
                     (Re.Alt (Re.Str (lit "youtu")) (Re.Str (lit "youtube-nocookie")))))
 (Re.Seq (Re.Str (lit "."))
 (Re.Seq (Re.Grp 4 (Re.Alt (Re.Str (lit "com")) (Re.Str (lit "be"))))
 (Re.Seq (Re.Str (lit "/"))
 (Re.Seq (Re.Opt (Re.Grp 5
            (Re.Alt (Re.Str (lit "watch?v="))
            (Re.Alt (Re.Str (lit "embed/"))
            (Re.Alt (Re.Str (lit "v/"))
            (Re.Alt (Re.Str (lit "shorts/"))
                    (Re.Seq (Re.Plus dot) (Re.Str (lit "?v=")))))))))
         (Re.Grp 6 (Re.Rep 11 not_separator)))))))).

Definition is_youtube_url (url : str) : bool :=
  match Re.match_ youtube_regex url with
  | Some _ => true
  | None => false
  end.

(** The end that the first two patterns of [normalize_youtube_url] share:
    [([\w\-]{11})(?:\S+)?$] *)
Definition id_to_end (unicode_alnum : N -> bool) : Re.t :=
  Re.Seq (Re.Grp 1 (Re.Rep 11 (id_char unicode_alnum)))
         (Re.Seq (Re.Opt (Re.Plus non_space)) Re.Eol).

(** [patterns] *)
Definition patterns (unicode_alnum : N -> bool) : list Re.t :=
  [ (* Regular and mobile URLs *)
    Re.Seq (Re.Alt (Re.Str (lit "v=")) (Re.Str (lit "/"))) (id_to_end unicode_alnum);
    (* Shorts URLs *)
    Re.Seq (Re.Str (lit "shorts/")) (id_to_end unicode_alnum);
    (* Just the video ID *)
    Re.Seq Re.Bol (Re.Seq (Re.Grp 1 (Re.Rep 11 (id_char unicode_alnum))) Re.Eol) ].

(** The loop over the patterns: the first group of the first pattern found
    in the URL. *)
Fixpoint find_video_id (patterns : list Re.t) (url : str) : option str :=
  match patterns with
  | [] => None
  | pattern :: rest =>
      match Re.search pattern url with
      | Some caps => Re.group 1 caps
      | None => find_video_id rest url
      end
  end.

Definition WATCH_URL : str := lit "https://www.youtube.com/watch?v=".

Definition normalize_youtube_url (unicode_alnum : N -> bool) (url : str) : str :=
  match find_video_id (patterns unicode_alnum) url with
  | Some (c :: video_id) => WATCH_URL ++ c :: video_id
  | _ => url  (* Return original if no ID found *)
  end.

End youtube_downloader.

(** *** Facts on the matcher *)

(** A pattern without [^] and [$]. *)
Fixpoint anchor_free (r : Re.t) : bool :=
  match r with
  | Re.Seq r1 r2 | Re.Alt r1 r2 => anchor_free r1 && anchor_free r2
  | Re.Opt r' | Re.Grp _ r' => anchor_free r'
  | Re.Bol | Re.Eol => false
  | _ => true
  end.

(** A pattern without capturing group. *)
Fixpoint no_groups (r : Re.t) : bool :=
  match r with
  | Re.Seq r1 r2 | Re.Alt r1 r2 => no_groups r1 && no_groups r2
  | Re.Opt r' => no_groups r'
  | Re.Grp _ _ => false
  | _ => true
  end.

(** *** [normalize_youtube_url] *)

(** A video id: eleven characters of the class [[\w\-]]. *)
Definition is_video_id (unicode_alnum : N -> bool) (video_id : str) : Prop :=
  List.length video_id = 11%nat /\ forallb (youtube_downloader.id_char unicode_alnum) video_id = true.

(** ** src/clean_cache.py: the cache of downloaded models *)

(** What lies at a path: a regular file of some size, a symbolic link with
    what it resolves to ([None] when it is broken), or a directory with its
    entries in the order in which [os.listdir] gives them.  What a link
    resolves to is taken to lie outside the cache directory, so that
    removing entries of the cache does not change it; failures of the
    operating system other than those of a wrong kind of file are not
    represented. *)
#[warnings="-register-all"] Inductive tree : Type :=
| Reg (size : Z)
| Link (target : option tree)
| Folder (entries : list (str * tree)).

(** Following the links. *)
Fixpoint resolve (t : tree) : option tree :=
  match t with
  | Link (Some t') => resolve t'
  | Link None => None
  | _ => Some t
  end.

(** [os.path.exists] and [os.path.isdir] of a path, from what lies there. *)
Definition node_exists (t : tree) : bool :=
  match resolve t with
  | Some _ => true
  | None => false
  end.

Definition isdir (t : tree) : bool :=
  match resolve t with
  | Some (Folder _) => true
  | _ => false
  end.

(** What lies at [os.path.join(path, name)], for the name of an entry. *)
Definition entry (name : str) (entries : list (str * tree)) : option tree :=
  snd <$> List.find (fun e => str_eqb (fst e) name) entries.

Definition child (t : tree) (name : str) : option tree :=
  match resolve t with
  | Some (Folder entries) => entry name entries
  | _ => None
  end.

(** The [filenames] that [os.walk] reports for a directory: the entries
    that are no directory, a link to a directory counting as one; each with
    its size, or [None] where the path is a link. *)
Definition filenames (entries : list (str * tree)) : list (str * option Z) :=
  flat_map (fun e =>
              match snd e with
              | Reg size => [(fst e, Some size)]
              | Link _ => if isdir (snd e) then [] else [(fst e, None)]
              | Folder _ => []
              end) entries.

(** [os.walk(top)], top down and without following links: the file names
    of every directory visited. *)
Fixpoint walk (top : tree) : list (list (str * option Z)) :=
  match top with
  | Folder entries =>
      filenames entries
      :: flat_map (fun e =>
                     match snd e with
                     | Folder _ => walk (snd e)
                     | _ => []
                     end) entries
  | _ => []
  end.

(** [get_directory_size(path)], from what lies at [path]. *)
Definition get_directory_size (path : option tree) : Z :=
  let triples :=
    match path ≫= resolve with
    | Some top => walk top
    | None => []
    end in
  fold_left
    (fun total_size names =>
       fold_left
         (fun total_size file =>
            match snd file with
            | None => total_size          (* a symbolic link: skipped *)
            | Some size => total_size + size
            end)
         names total_size)
    triples 0.

(** An entry of the dictionary that [list_cached_models] returns. *)
Module Info.
Record t : Type := mk { path : str; size : Z; size_format : str }.
End Info.

(** [list_cached_models(cache_dir)], from what lies at [cache_dir];
    [format_size] is [humanize.naturalsize]. *)
Definition list_cached_models (path_join : str -> str -> str) (format_size : Z -> str)
  (cache_dir : str) (root : option tree) : res (gmap str Info.t) :=
  match root ≫= resolve with
  | None => Ok ∅
  | Some (Folder entries) =>
      Ok (fold_left
            (fun cached_models item =>
               let item_path := path_join cache_dir (fst item) in
               if isdir (snd item) then
                 if default false (node_exists <$> child (snd item) (lit "model.bin"))
                    || default false (node_exists <$> child (snd item) (lit "pytorch_model.bin"))
                 then
                   let size := get_directory_size (Some (snd item)) in
                   <[fst item := Info.mk item_path size (format_size size)]> cached_models
                 else cached_models
               else cached_models)
            entries ∅)
  | Some _ => Raise ExternalError  (* [os.listdir] of a file *)
  end.

(** The directory without the entry of a name. *)
Definition remove_entry (name : str) (entries : list (str * tree)) : list (str * tree) :=
  List.filter (fun e => negb (str_eqb (fst e) name)) entries.

(** The cache directory with other entries; a link to it stays a link. *)
Fixpoint set_entries (root : tree) (entries : list (str * tree)) : tree :=
  match root with
  | Link (Some t) => Link (Some (set_entries t entries))
  | Folder _ => Folder entries
  | _ => root
  end.

(** The answer to the question that is asked when [force] is off. *)
Definition confirmed (str_lower : str -> str) (force : bool) (confirm : str) : bool :=
  force || str_eqb (str_lower confirm) (lit "y").


(** The loop of [clear_all_cache] over the listing [items] of the cache
    directory: a directory is removed by [shutil.rmtree], which raises on a
    link to a directory; anything else is removed by [os.remove]. *)
Fixpoint clear_loop (items entries : list (str * tree)) : list (str * tree) * bool :=
  match items with
  | [] => (entries, true)
  | item :: rest =>
      if isdir (snd item) then
        match snd item with
        | Folder _ => clear_loop rest (remove_entry (fst item) entries)
        | _ => (entries, false)
        end
      else clear_loop rest (remove_entry (fst item) entries)
  end.

(** [clear_all_cache(cache_dir, force)] *)
Definition clear_all_cache (str_lower : str -> str) (root : option tree)
  (force : bool) (confirm : str) : option tree * bool :=
  match root, root ≫= resolve with
  | Some t, Some top =>
      if negb (confirmed str_lower force confirm) then (root, false)
      else
        match top with
        | Folder entries =>
            let result := clear_loop entries entries in
            (Some (set_entries t (fst result)), snd result)
        | _ => (root, false)  (* [os.listdir] of a file raises *)
        end
  | _, _ => (root, false)
  end.

(** *** The size of a directory *)

(** The sizes of the regular files below a path that are reached without
    going through a link. *)
Fixpoint tree_size (t : tree) : Z :=
  match t with
  | Reg size => size
  | Link _ => 0
  | Folder entries => fold_right (fun e total => tree_size (snd e) + total) 0 entries
  end.

(** The inner and the outer loop of [get_directory_size]. *)
Definition add_files (total_size : Z) (names : list (str * option Z)) : Z :=
  fold_left (fun total_size file =>
               match snd file with
               | None => total_size
               | Some size => total_size + size
               end) names total_size.

Definition add_triples (total_size : Z) (triples : list (list (str * option Z))) : Z :=
  fold_left add_files triples total_size.

(** A directory of models: a directory that holds a [model.bin] or a
    [pytorch_model.bin] that exists. *)
Definition is_model_dir (t : tree) : bool :=
  isdir t
  && (default false (node_exists <$> child t (lit "model.bin"))
      || default false (node_exists <$> child t (lit "pytorch_model.bin"))).

(** What [list_cached_models] records for a directory of models. *)
Definition info_of (path_join : str -> str -> str) (format_size : Z -> str)
  (cache_dir name : str) (t : tree) : Info.t :=
  Info.mk (path_join cache_dir name) (get_directory_size (Some t))
          (format_size (get_directory_size (Some t))).

(** A cache with a model, a stray file and an empty directory. *)
Definition demo_cache : list (str * tree) :=
  [ (lit "small", Folder [(lit "model.bin", Reg 100); (lit "config.json", Reg 5)]);
    (lit "notes.txt", Reg 7);
    (lit "tmp", Folder []) ].


(** ** Proofs *)

Lemma U_pos : 0 < U.
Proof. unfold U. apply Z.pow_pos_nonneg; lia. Qed.

Lemma rne_div_cases (a b : Z) :
  0 < b ->
  exists q r, a = b * q + r /\ 0 <= r < b /\
    (rne_div a b = q /\ 2 * r <= b \/ rne_div a b = q + 1 /\ b <= 2 * r) /\
    (2 * r = b -> Z.even (rne_div a b) = true).
Proof.
  intros Hb. exists (a / b), (a mod b).
  pose proof (Z.div_mod a b) as E. pose proof (Z.mod_pos_bound a b Hb) as B.
  split; [lia|]. split; [lia|].
  unfold rne_div. cbv zeta. destruct (Z.compare_spec (2 * (a mod b)) b) as [H|H|H].
  - destruct (Z.even (a / b)) eqn:Ev.
    + split; [left; lia|auto].
    + split; [right; lia|]. intros _. rewrite Z.even_add, Ev. reflexivity.
  - split; [left; lia|lia].
  - split; [right; lia|lia].
Qed.

Lemma rne_div_lb (a b k : Z) : 0 < b -> k * b <= a -> k <= rne_div a b.
Proof.
  intros Hb H. destruct (rne_div_cases a b Hb) as (q & r & E & B & [[-> _]|[-> _]] & _); nia.
Qed.

Lemma rne_div_ub (a b k : Z) : 0 < b -> a <= k * b -> rne_div a b <= k.
Proof.
  intros Hb H. destruct (rne_div_cases a b Hb) as (q & r & E & B & [[-> C]|[-> C]] & _); nia.
Qed.

Lemma rne_div_exact (k b : Z) : 0 < b -> rne_div (k * b) b = k.
Proof.
  intros Hb. apply Z.le_antisymm.
  - apply rne_div_ub; lia.
  - apply rne_div_lb; lia.
Qed.

Lemma rne_div_mono (a a' b : Z) : 0 < b -> a <= a' -> rne_div a b <= rne_div a' b.
Proof.
  intros Hb H.
  destruct (rne_div_cases a b Hb) as (q & r & E & B & C & Ev).
  destruct (rne_div_cases a' b Hb) as (q' & r' & E' & B' & C' & Ev').
  assert (q <= q') by nia.
  destruct (Z.eq_dec q q') as [->|Hne].
  - assert (r <= r') by lia.
    destruct C as [[X C]|[X C]], C' as [[Y C']|[Y C']]; try lia.
    (* a rounds up, a' rounds down: both are the same tie *)
    assert (Ha : a = a') by lia. rewrite Ha in X. lia.
  - destruct C as [[-> C]|[-> C]], C' as [[-> C']|[-> C']]; lia.
Qed.

Lemma rne_div_opp (a b : Z) : 0 < b -> rne_div (- a) b = - rne_div a b.
Proof.
  intros Hb.
  destruct (rne_div_cases a b Hb) as (q & r & E & B & C & Ev).
  destruct (rne_div_cases (- a) b Hb) as (q' & r' & E' & B' & C' & Ev').
  destruct (Z.eq_dec r 0) as [->|Hr].
  - assert (q' = - q) by nia. assert (r' = 0) by nia. subst r'.
    destruct C as [[-> C]|[-> C]], C' as [[-> C']|[-> C']]; lia.
  - assert (q' = - q - 1) by nia. assert (r' = b - r) by nia. subst q' r'.
    destruct C as [[X C]|[X C]], C' as [[Y C']|[Y C']]; try lia.
    + assert (T : 2 * r = b) by lia. specialize (Ev T). specialize (Ev' ltac:(lia)).
      rewrite X in Ev. rewrite Y in Ev'.
      replace (- q - 1) with (- (q + 1)) in Ev' by lia.
      rewrite Z.even_opp, Z.even_add, Ev in Ev'. discriminate.
    + assert (T : 2 * r = b) by lia. specialize (Ev T). specialize (Ev' ltac:(lia)).
      rewrite X in Ev. rewrite Y in Ev'.
      replace (- q - 1 + 1) with (- q) in Ev' by lia.
      rewrite Z.even_opp in Ev'. rewrite Z.even_add, Ev' in Ev. discriminate.
Qed.

Lemma rne_div_err (a b : Z) : 0 < b -> 2 * Z.abs (rne_div a b * b - a) <= b.
Proof.
  intros Hb. destruct (rne_div_cases a b Hb) as (q & r & E & B & [[-> C]|[-> C]] & _); nia.
Qed.

Lemma cexp_nonneg (a b : Z) : 0 <= cexp a b.
Proof. unfold cexp. lia. Qed.

Lemma cexp_opp (a b : Z) : cexp (- a) b = cexp a b.
Proof. unfold cexp. now rewrite Z.abs_opp. Qed.

Lemma cexp_mono (a a' b : Z) : 0 < b -> 0 <= a <= a' -> cexp a b <= cexp a' b.
Proof.
  intros Hb H. unfold cexp.
  assert (Z.log2 (Z.abs a / b) <= Z.log2 (Z.abs a' / b)); [|lia].
  apply Z.log2_le_mono, Z.div_le_mono; lia.
Qed.

Lemma cexp_scale (n b : Z) : 0 < b -> cexp (n * b) b = cexp n 1.
Proof.
  intros Hb. unfold cexp. rewrite Z.abs_mul, (Z.abs_eq b), Z.div_mul, Z.div_1_r; lia.
Qed.

Lemma pow2_pos (e : Z) : 0 <= e -> 0 < 2 ^ e.
Proof. intros. apply Z.pow_pos_nonneg; lia. Qed.

Lemma rnd_val_opp (a b : Z) : 0 < b -> rnd_val (- a) b = - rnd_val a b.
Proof.
  intros Hb. unfold rnd_val. rewrite cexp_opp.
  pose proof (pow2_pos _ (cexp_nonneg a b)).
  rewrite rne_div_opp by nia. lia.
Qed.

Lemma rnd_val_nonneg (a b : Z) : 0 < b -> 0 <= a -> 0 <= rnd_val a b.
Proof.
  intros Hb Ha. unfold rnd_val.
  pose proof (pow2_pos _ (cexp_nonneg a b)).
  assert (0 <= rne_div a (b * 2 ^ cexp a b)) by (apply rne_div_lb; nia).
  nia.
Qed.

Lemma rnd_val_mono_nonneg (a a' b : Z) :
  0 < b -> 0 <= a <= a' -> rnd_val a b <= rnd_val a' b.
Proof.
  intros Hb H. pose proof (cexp_mono a a' b Hb H) as Hex.
  pose proof (cexp_nonneg a b) as Hn. unfold rnd_val.
  pose proof (pow2_pos _ Hn) as Hp.
  destruct (Z.eq_dec (cexp a b) (cexp a' b)) as [E|E].
  - rewrite <- E. apply Z.mul_le_mono_nonneg_r; [lia|].
    apply rne_div_mono; nia.
  - (* a' lies in a higher binade: a power of two separates the roundings *)
    remember (cexp a b) as ex eqn:Eex. remember (cexp a' b) as ex' eqn:Eex'.
    unfold cexp in Eex, Eex'. rewrite Z.abs_eq in Eex, Eex' by lia.
    remember (Z.log2 (a' / b)) as L' eqn:EL'.
    assert (E' : ex' = L' - 52) by lia.
    assert (HL : Z.log2 (a / b) < L') by lia.
    pose proof (pow2_pos ex' ltac:(lia)) as Hp'.
    assert (Hhi : 2 ^ L' * b <= a').
    { assert (0 < a' / b).
      { destruct (Z.eq_dec (a' / b) 0) as [Z0|]; [|pose proof (Z.div_pos a' b); lia].
        rewrite Z0 in EL'. simpl in EL'. lia. }
      pose proof (Z.log2_spec (a' / b) ltac:(lia)) as [S _]. rewrite <- EL' in S.
      pose proof (Z.mul_div_le a' b Hb). nia. }
    assert (Hlo : a <= 2 ^ L' * b).
    { assert (a / b < 2 ^ L').
      { destruct (Z.eq_dec (a / b) 0) as [Z0|].
        - rewrite Z0. apply pow2_pos. lia.
        - pose proof (Z.div_pos a b).
          pose proof (Z.log2_spec (a / b) ltac:(lia)) as [_ S].
          eapply Z.lt_le_trans; [exact S|]. apply Z.pow_le_mono_r; lia. }
      pose proof (Z.div_mod a b ltac:(lia)). pose proof (Z.mod_pos_bound a b Hb). nia. }
    assert (P' : 2 ^ L' = 2 ^ 52 * 2 ^ ex').
    { rewrite <- Z.pow_add_r by lia. f_equal. lia. }
    assert (P : 2 ^ L' = 2 ^ (L' - ex) * 2 ^ ex).
    { rewrite <- Z.pow_add_r by lia. f_equal. lia. }
    assert (rne_div a (b * 2 ^ ex) <= 2 ^ (L' - ex)) by (apply rne_div_ub; nia).
    assert (2 ^ 52 <= rne_div a' (b * 2 ^ ex')) by (apply rne_div_lb; nia).
    nia.
Qed.

Lemma rnd_val_mono (a a' b : Z) : 0 < b -> a <= a' -> rnd_val a b <= rnd_val a' b.
Proof.
  intros Hb H.
  destruct (Z.le_gt_cases 0 a) as [Ha|Ha].
  - apply rnd_val_mono_nonneg; lia.
  - destruct (Z.le_gt_cases 0 a') as [Ha'|Ha'].
    + pose proof (rnd_val_nonneg a' b Hb Ha').
      pose proof (rnd_val_nonneg (- a) b Hb ltac:(lia)) as X.
      rewrite rnd_val_opp in X by lia. lia.
    + pose proof (rnd_val_mono_nonneg (- a') (- a) b Hb ltac:(lia)) as X.
      rewrite !rnd_val_opp in X by lia. lia.
Qed.

Lemma rnd_val_exact (n b : Z) :
  0 < b -> n mod 2 ^ cexp n 1 = 0 -> rnd_val (n * b) b = n.
Proof.
  intros Hb H. unfold rnd_val. rewrite cexp_scale by lia.
  pose proof (pow2_pos _ (cexp_nonneg n 1)) as Hp.
  remember (2 ^ cexp n 1) as p eqn:Ep.
  apply Z.mod_divide in H; [|lia]. destruct H as [k Hk].
  rewrite Hk. replace (k * p * b) with (k * (b * p)) by lia.
  rewrite rne_div_exact by nia. reflexivity.
Qed.

Ltac zcompute := first [ apply Z.leb_le | apply Z.ltb_lt | idtac ]; vm_compute; reflexivity.

Lemma U_eq : U = 2 ^ 1074. Proof. reflexivity. Qed.

Lemma HUGE_eq : HUGE = 2 ^ 1024 * U. Proof. zcompute. Qed.

Lemma MAXF_eq : MAXF = (2 ^ 53 - 1) * 2 ^ 971 * U. Proof. zcompute. Qed.

Lemma MAXF_lt_HUGE : MAXF < HUGE. Proof. zcompute. Qed.

Lemma U_le_MAXF : 2 ^ 900 * U <= MAXF. Proof. zcompute. Qed.


(** Whole multiples of a power of two with at most 53 significant bits are
    binary64 numbers, and conversely. *)
Lemma mod_pow2_mul (k e c : Z) : 0 <= c <= e -> (k * 2 ^ e) mod 2 ^ c = 0.
Proof.
  intros H. apply Z.mod_divide; [pose proof (pow2_pos c); lia|].
  exists (k * 2 ^ (e - c)). rewrite <- Z.mul_assoc, <- Z.pow_add_r by lia.
  do 2 f_equal. lia.
Qed.

Lemma cexp_le (n e : Z) : 0 <= e -> Z.abs n <= 2 ^ (e + 53) -> cexp n 1 <= e + 1.
Proof.
  intros He H. unfold cexp. rewrite Z.div_1_r.
  assert (Z.log2 (Z.abs n) <= e + 53); [|lia].
  rewrite <- (Z.log2_pow2 (e + 53)) by lia. apply Z.log2_le_mono. lia.
Qed.

Lemma cexp_lt (n e : Z) : 0 <= e -> Z.abs n < 2 ^ (e + 53) -> cexp n 1 <= e.
Proof.
  intros He H. unfold cexp. rewrite Z.div_1_r.
  destruct (Z.eq_dec (Z.abs n) 0) as [->|Hn]; [simpl; lia|].
  assert (Z.log2 (Z.abs n) < e + 53); [|lia].
  apply Z.log2_lt_pow2; lia.
Qed.

Lemma mul_pow2_mod_lt (k e : Z) :
  0 <= e -> Z.abs k < 2 ^ 53 -> (k * 2 ^ e) mod 2 ^ cexp (k * 2 ^ e) 1 = 0.
Proof.
  intros He Hk. pose proof (pow2_pos e He) as Hp.
  apply mod_pow2_mul. split; [apply cexp_nonneg|].
  apply cexp_lt; [lia|]. rewrite Z.abs_mul, (Z.abs_eq (2 ^ e)), Z.pow_add_r by lia. nia.
Qed.

Lemma mul_pow2_mod (k e : Z) :
  0 <= e -> Z.abs k <= 2 ^ 53 -> (k * 2 ^ e) mod 2 ^ cexp (k * 2 ^ e) 1 = 0.
Proof.
  intros He Hk.
  destruct (Z.eq_dec (Z.abs k) (2 ^ 53)) as [E|E].
  - assert (K : k / 2 * 2 = k /\ Z.abs (k / 2) < 2 ^ 53).
    { assert (k = 2 ^ 53 \/ k = - 2 ^ 53) as [->| ->] by lia; split; zcompute. }
    destruct K as [K1 K2].
    assert (R : k * 2 ^ e = (k / 2) * 2 ^ (e + 1)).
    { rewrite Z.pow_add_r, Z.pow_1_r by lia. rewrite <- K1 at 1. lia. }
    rewrite R. apply mul_pow2_mod_lt; [lia|assumption].
  - apply mul_pow2_mod_lt; lia.
Qed.

Lemma b64_intro (k e : Z) :
  0 <= e -> Z.abs k <= 2 ^ 53 -> Z.abs (k * 2 ^ e) < HUGE -> b64 (k * 2 ^ e).
Proof. intros. split; [assumption|]. now apply mul_pow2_mod. Qed.

Lemma b64_elim (n : Z) :
  b64 n -> exists k e, 0 <= e /\ n = k * 2 ^ e /\ Z.abs k < 2 ^ 53 /\ e = cexp n 1.
Proof.
  intros [Hh Hm]. pose proof (cexp_nonneg n 1) as He.
  pose proof (pow2_pos _ He) as Hp.
  apply Z.mod_divide in Hm; [|lia]. destruct Hm as [k Hk].
  exists k, (cexp n 1). repeat split; try assumption.
  destruct (Z.eq_dec n 0) as [Hn|Hn].
  - assert (k = 0) by nia. subst k. simpl. lia.
  - assert (Z.abs n < 2 ^ (cexp n 1 + 53)).
    { pose proof (Z.log2_spec (Z.abs n) ltac:(lia)) as [_ S].
      eapply Z.lt_le_trans; [exact S|]. apply Z.pow_le_mono_r; [lia|].
      unfold cexp. rewrite Z.div_1_r. lia. }
    rewrite Z.pow_add_r in H by lia.
    assert (Z.abs n = Z.abs k * 2 ^ cexp n 1) by (rewrite Hk at 1; rewrite Z.abs_mul; lia).
    nia.
Qed.

Lemma b64_0 : b64 0.
Proof. split; [zcompute|reflexivity]. Qed.

Lemma b64_opp (n : Z) : b64 n -> b64 (- n).
Proof.
  intros [H1 H2]. split; [now rewrite Z.abs_opp|].
  rewrite cexp_opp. apply Z.mod_divide in H2; [|pose proof (pow2_pos _ (cexp_nonneg n 1)); lia].
  apply Z.mod_divide; [pose proof (pow2_pos _ (cexp_nonneg n 1)); lia|].
  now apply Z.divide_opp_r.
Qed.

(** Whole numbers up to [2^53] are binary64 numbers. *)
Lemma b64_int (z : Z) : Z.abs z <= 2 ^ 53 -> b64 (z * U).
Proof.
  intros H. apply b64_intro; [lia|assumption|].
  fold U. rewrite Z.abs_mul, (Z.abs_eq U) by (pose proof U_pos; lia).
  pose proof U_pos. rewrite HUGE_eq. nia.
Qed.

Lemma b64_MAXF : b64 MAXF.
Proof.
  rewrite MAXF_eq. unfold U. rewrite <- Z.mul_assoc, <- Z.pow_add_r by lia.
  apply b64_intro; [lia|lia|]. zcompute.
Qed.

Lemma b64_le_MAXF (n : Z) : b64 n -> Z.abs n <= MAXF.
Proof.
  intros H. destruct (b64_elim n H) as (k & e & He & Hn & Hk & Ee).
  destruct H as [Hh _].
  destruct (Z.le_gt_cases (Z.abs n) MAXF) as [|Hgt]; [assumption|exfalso].
  assert (E5 : e = 2045).
  { rewrite Ee. unfold cexp. rewrite Z.div_1_r.
    assert (Z.log2 (Z.abs n) = 2097); [|lia].
    apply Z.log2_unique; [lia|]. split.
    - assert (2 ^ 2097 <= MAXF) by zcompute. lia.
    - exact Hh. }
  clear Ee. subst e.
  assert (0 < 2 ^ 2045) by (apply pow2_pos; lia).
  assert (Z.abs n = Z.abs k * 2 ^ 2045) by (rewrite Hn at 1; rewrite Z.abs_mul; lia).
  assert (MAXF = (2 ^ 53 - 1) * 2 ^ 2045) by zcompute.
  assert (HUGE = 2 ^ 53 * 2 ^ 2045) by zcompute.
  nia.
Qed.

(** Rounding within the range gives a finite float. *)
Lemma rnd_val_range (a b : Z) :
  0 < b -> - MAXF * b <= a <= MAXF * b -> - MAXF <= rnd_val a b <= MAXF.
Proof.
  intros Hb H. pose proof b64_MAXF as [_ M].
  pose proof (rnd_val_mono a (MAXF * b) b Hb ltac:(lia)) as H1.
  pose proof (rnd_val_mono (- MAXF * b) a b Hb ltac:(lia)) as H2.
  rewrite rnd_val_exact in H1 by assumption.
  replace (- MAXF * b) with (- (MAXF * b)) in H2 by lia.
  rewrite rnd_val_opp, rnd_val_exact in H2 by assumption. lia.
Qed.

Lemma rnd_div_fin (a b : Z) :
  0 < b -> - MAXF * b <= a <= MAXF * b -> rnd_div a b = Fin (rnd_val a b).
Proof.
  intros Hb H. pose proof (rnd_val_range a b Hb H). pose proof MAXF_lt_HUGE.
  unfold rnd_div. cbv zeta. destruct (Z.leb_spec HUGE (Z.abs (rnd_val a b))); [lia|reflexivity].
Qed.

Lemma rnd_div_exact (n b : Z) : 0 < b -> b64 n -> rnd_div (n * b) b = Fin n.
Proof.
  intros Hb [H1 H2]. unfold rnd_div. cbv zeta. rewrite rnd_val_exact by assumption.
  destruct (Z.leb_spec HUGE (Z.abs n)); [lia|reflexivity].
Qed.

Lemma rnd_div_exact1 (n : Z) : b64 n -> rnd_div n 1 = Fin n.
Proof. intros H. rewrite <- (Z.mul_1_r n) at 1. apply rnd_div_exact; [lia|assumption]. Qed.

Lemma rnd_val_exact1 (n : Z) : b64 n -> rnd_val n 1 = n.
Proof.
  intros [_ H]. rewrite <- (Z.mul_1_r n) at 1. apply rnd_val_exact; [lia|assumption].
Qed.

(** Bounds through a binary64 number. *)
Lemma rnd_val_le (a b k : Z) : 0 < b -> b64 k -> a <= k * b -> rnd_val a b <= k.
Proof.
  intros Hb [_ Hk] H. pose proof (rnd_val_mono a (k * b) b Hb H) as M.
  now rewrite rnd_val_exact in M.
Qed.

Lemma rnd_val_ge (a b k : Z) : 0 < b -> b64 k -> k * b <= a -> k <= rnd_val a b.
Proof.
  intros Hb [_ Hk] H. pose proof (rnd_val_mono (k * b) a b Hb H) as M.
  now rewrite rnd_val_exact in M.
Qed.



Lemma fsub_fin (a b : Z) : fsub (Fin a) (Fin b) = rnd_div (a - b) 1.
Proof. unfold fsub, fopp, fadd. f_equal. Qed.

Lemma fadd_fin (a b : Z) : fadd (Fin a) (Fin b) = rnd_div (a + b) 1.
Proof. reflexivity. Qed.

Lemma fdiv_pos (a b : Z) : 0 < b -> fdiv (Fin a) (Fin b) = rnd_div (a * U) b.
Proof.
  intros H. unfold fdiv.
  destruct (Z.eqb_spec b 0); [lia|]. destruct (Z.ltb_spec b 0); [lia|reflexivity].
Qed.

Lemma fmod_fin (a b : Z) : b <> 0 -> fmod (Fin a) (Fin b) = Fin (Z.rem a b).
Proof. intros H. unfold fmod. destruct (Z.eqb_spec b 0); [lia|reflexivity]. Qed.

Lemma nonzero_fin (a : Z) : nonzero (Fin a) = negb (a =? 0).
Proof. reflexivity. Qed.

Lemma of_Z_exact (z : Z) : Z.abs z <= 2 ^ 53 -> of_Z z = Fin (z * U).
Proof. intros H. unfold of_Z. apply rnd_div_exact1, b64_int, H. Qed.

Lemma float_of_int_exact (z : Z) : Z.abs z <= 2 ^ 53 -> float_of_int z = Ok (Fin (z * U)).
Proof. intros H. unfold float_of_int. now rewrite of_Z_exact. Qed.

Lemma quot_mul_U (q : Z) : Z.quot (q * U) U = q.
Proof. apply Z.quot_mul. pose proof U_pos. lia. Qed.

(** The snapping of the quotient to an integral value, for a quotient [v]
    within the range: the result is a whole number [q], the floor of [v] or
    the next one. *)
Lemma snap_spec (v : Z) :
  - MAXF <= v <= MAXF -> (v mod U <> 0 -> Z.abs v <= 2 ^ 52 * U) ->
  exists q,
    snap_quotient (Fin v) = Fin (q * U)
    /\ v / U <= q <= v / U + 1 /\ (v mod U = 0 -> q = v / U).
Proof.
  intros Hv Hs. pose proof U_pos as HU.
  unfold snap_quotient. rewrite nonzero_fin. destruct (Z.eqb_spec v 0) as [->|Hnz]; cbn [negb].
  { exists 0. rewrite Z.div_0_l by lia. split; [reflexivity|lia]. }
  cbv zeta. cbn [ffloor]. rewrite fsub_fin.
  assert (Ev : v - v / U * U = v mod U) by (rewrite Z.mod_eq; lia).
  rewrite Ev. pose proof (Z.mod_pos_bound v U HU) as B.
  assert (U <= MAXF) by (pose proof U_le_MAXF; assert (1 <= 2 ^ 900) by zcompute; nia).
  rewrite rnd_div_fin by lia.
  unfold fgt, flt, half.
  destruct (Z.ltb_spec (U / 2) (rnd_val (v mod U) 1)) as [Hsnap|Hno].
  - assert (Hm : v mod U <> 0).
    { intros E. rewrite E in Hsnap. change (rnd_val 0 1) with 0 in Hsnap.
      pose proof (Z.div_pos U 2). lia. }
    specialize (Hs Hm). exists (v / U + 1). unfold one. rewrite fadd_fin.
    replace (v / U * U + U) with ((v / U + 1) * U) by lia.
    rewrite rnd_div_exact1.
    + split; [reflexivity|]. split; [lia|]. intros; contradiction.
    + apply b64_int.
      assert (- 2 ^ 52 <= v / U <= 2 ^ 52); [|lia].
      split.
      * apply Z.div_le_lower_bound; lia.
      * apply Z.div_le_upper_bound; lia.
  - exists (v / U). split; [reflexivity|]. split; [lia|]. reflexivity.
Qed.

Lemma rnd_div_fin' (a b : Z) :
  - MAXF <= rnd_val a b <= MAXF -> rnd_div a b = Fin (rnd_val a b).
Proof.
  intros H. pose proof MAXF_lt_HUGE. unfold rnd_div. cbv zeta.
  destruct (Z.leb_spec HUGE (Z.abs (rnd_val a b))); [lia|reflexivity].
Qed.

(** A rounded value with a fractional part is below [2^52]. *)
Lemma rnd_val_frac (a b : Z) :
  0 < b -> rnd_val a b mod U <> 0 -> Z.abs (rnd_val a b) <= 2 ^ 52 * U.
Proof.
  intros Hb H. pose proof (cexp_nonneg a b) as He.
  destruct (Z.le_gt_cases 1074 (cexp a b)) as [Hc|Hc].
  - exfalso. apply H. unfold rnd_val.
    replace (2 ^ cexp a b) with (2 ^ (cexp a b - 1074) * U).
    2:{ unfold U. rewrite <- Z.pow_add_r by lia. f_equal. lia. }
    rewrite Z.mul_assoc. apply Z.mod_mul. pose proof U_pos. lia.
  - assert (B : b64 (2 ^ 52 * U)) by (apply b64_int; zcompute).
    assert (Z.abs a <= 2 ^ 52 * U * b).
    { unfold cexp in Hc.
      assert (L : Z.log2 (Z.abs a / b) < 1126) by lia.
      assert (Z.abs a / b < 2 ^ 1126).
      { destruct (Z.eq_dec (Z.abs a / b) 0) as [->|]; [zcompute|].
        pose proof (Z.div_pos (Z.abs a) b ltac:(lia) Hb).
        apply Z.log2_lt_pow2; lia. }
      replace (2 ^ 52 * U) with (2 ^ 1126) by zcompute.
      pose proof (Z.div_mod (Z.abs a) b ltac:(lia)).
      pose proof (Z.mod_pos_bound (Z.abs a) b Hb). nia. }
    pose proof (rnd_val_le a b _ Hb B ltac:(lia)).
    pose proof (rnd_val_ge a b _ Hb (b64_opp _ B) ltac:(lia)). lia.
Qed.

Lemma U_le_MAXF' : U <= MAXF.
Proof. pose proof U_le_MAXF. pose proof U_pos. assert (1 <= 2 ^ 900) by zcompute. nia. Qed.

(** [//] and [%] of a non-negative float by a whole positive number [c]:
    the remainder is exact, the quotient is a whole number, and it is the
    exact quotient as long as [c] times it stays below [2^53]. *)
Lemma float_div_mod_nonneg (n c : Z) :
  0 <= n <= MAXF -> 1 <= c <= 2 ^ 53 ->
  exists q,
    float_div_mod (Fin n) (Fin (c * U)) = (Fin (q * U), Fin (n mod (c * U)))
    /\ 0 <= q /\ (c * (n / (c * U)) <= 2 ^ 53 -> q = n / (c * U)).
Proof.
  intros Hn Hc. pose proof U_pos as HU. pose proof U_le_MAXF' as HM.
  set (d := c * U). assert (Hd : 0 < d) by (unfold d; nia).
  assert (HdU : U <= d) by (unfold d; nia).
  unfold float_div_mod. rewrite fmod_fin by lia. rewrite Z.rem_mod_nonneg by lia.
  pose proof (Z.mod_pos_bound n d Hd) as Br. pose proof (Z.div_mod n d ltac:(lia)) as Ed.
  set (r := n mod d) in *. set (k := n / d) in *.
  assert (Hk : 0 <= k) by (apply Z.div_pos; lia).
  rewrite fsub_fin. rewrite rnd_div_fin by lia.
  pose proof (rnd_val_range (n - r) 1 ltac:(lia) ltac:(lia)) as Rt.
  pose proof (rnd_val_nonneg (n - r) 1 ltac:(lia) ltac:(lia)) as Pt.
  set (t := rnd_val (n - r) 1) in *.
  rewrite fdiv_pos by lia. rewrite rnd_div_fin by nia.
  pose proof (rnd_val_range (t * U) d Hd ltac:(nia)) as Rv.
  pose proof (rnd_val_nonneg (t * U) d Hd ltac:(nia)) as Pv.
  pose proof (rnd_val_frac (t * U) d Hd) as Fv.
  assert (Ev : c * k <= 2 ^ 53 -> rnd_val (t * U) d = k * U).
  { intros Hck. assert (Et : t = c * k * U).
    { unfold t. replace (n - r) with (c * k * U) by (unfold d in Ed; lia).
      apply rnd_val_exact1, b64_int. lia. }
    rewrite Et. replace (c * k * U * U) with (k * U * d) by (unfold d; lia).
    apply rnd_val_exact; [lia|]. apply b64_int. nia. }
  set (v := rnd_val (t * U) d) in *.
  assert (Epair : (if nonzero (Fin r)
                   then if negb (Bool.eqb (flt (Fin d) zero) (flt (Fin r) zero))
                        then (fadd (Fin r) (Fin d), fsub (Fin v) one)
                        else (Fin r, Fin v)
                   else (zero, Fin v)) = (Fin r, Fin v)).
  { rewrite nonzero_fin. destruct (Z.eqb_spec r 0) as [E|E]; cbn [negb].
    - unfold zero. now rewrite E.
    - unfold flt, zero. destruct (Z.ltb_spec d 0); [lia|].
      destruct (Z.ltb_spec r 0); [lia|]. reflexivity. }
  rewrite Epair.
  destruct (snap_spec v ltac:(lia) Fv) as (q & Eq & Bq & Xq).
  exists q. rewrite Eq. split; [reflexivity|]. split.
  - assert (0 <= v / U) by (apply Z.div_pos; lia). lia.
  - intros Hck. specialize (Ev Hck). rewrite Ev in Xq.
    rewrite Z.mod_mul, Z.div_mul in Xq by lia. apply Xq. reflexivity.
Qed.

(** [//] and [%] of a negative float by a whole positive number [c]: the
    quotient is a whole number, at most [-1], and the remainder lies between
    zero and the divisor, which it can reach. *)
Lemma float_div_mod_neg (n c : Z) :
  - MAXF <= n < 0 -> 1 <= c <= 2 ^ 53 ->
  exists f m,
    float_div_mod (Fin n) (Fin (c * U)) = (Fin (f * U), Fin m)
    /\ f <= - 1 /\ 0 <= m <= c * U.
Proof.
  intros Hn Hc. pose proof U_pos as HU. pose proof U_le_MAXF' as HM.
  set (d := c * U). assert (Hd : 0 < d) by (unfold d; nia).
  assert (HdU : U <= d) by (unfold d; nia).
  assert (Bd : b64 d) by (apply b64_int; lia).
  assert (BU : b64 U).
  { replace U with (1 * U) by lia. apply b64_int. zcompute. }
  pose proof (b64_le_MAXF d Bd) as HdM.
  unfold float_div_mod. rewrite fmod_fin by lia.
  assert (Br : - d < Z.rem n d <= 0).
  { pose proof (Z.rem_nonpos n d ltac:(lia) ltac:(lia)).
    pose proof (Z.rem_bound_abs n d ltac:(lia)). lia. }
  pose proof (Z.quot_rem' n d) as Ed.
  set (r := Z.rem n d) in *. set (k := Z.quot n d) in *.
  assert (Hk : k <= 0) by nia.
  rewrite fsub_fin. rewrite rnd_div_fin by lia.
  pose proof (rnd_val_range (n - r) 1 ltac:(lia) ltac:(lia)) as Rt.
  pose proof (rnd_val_le (n - r) 1 0 ltac:(lia) b64_0 ltac:(lia)) as Pt.
  assert (Zt : r = 0 -> rnd_val (n - r) 1 <= - d).
  { intros E. apply rnd_val_le; [lia|now apply b64_opp|].
    assert (k <= - 1) by nia. nia. }
  set (t := rnd_val (n - r) 1) in *.
  rewrite fdiv_pos by lia. rewrite rnd_div_fin by nia.
  pose proof (rnd_val_range (t * U) d Hd ltac:(nia)) as Rv.
  pose proof (rnd_val_le (t * U) d 0 Hd b64_0 ltac:(nia)) as Pv.
  pose proof (rnd_val_frac (t * U) d Hd) as Fv.
  assert (Zv : r = 0 -> rnd_val (t * U) d <= - U).
  { intros E. specialize (Zt E). apply rnd_val_le; [lia|now apply b64_opp|]. nia. }
  set (v := rnd_val (t * U) d) in *.
  assert (Epair : exists v1 m,
    (if nonzero (Fin r)
     then if negb (Bool.eqb (flt (Fin d) zero) (flt (Fin r) zero))
          then (fadd (Fin r) (Fin d), fsub (Fin v) one)
          else (Fin r, Fin v)
     else (zero, Fin v)) = (Fin m, Fin v1)
    /\ - MAXF <= v1 <= - U /\ 0 <= m <= d
    /\ (v1 mod U <> 0 -> Z.abs v1 <= 2 ^ 52 * U)).
  { rewrite nonzero_fin. destruct (Z.eqb_spec r 0) as [E|E]; cbn [negb].
    - exists v, 0. split; [reflexivity|]. specialize (Zv E).
      split; [lia|]. split; [lia|exact Fv].
    - unfold flt, zero. destruct (Z.ltb_spec d 0); [lia|].
      destruct (Z.ltb_spec r 0); [|lia]. cbn [Bool.eqb negb].
      unfold one. rewrite fadd_fin, fsub_fin.
      rewrite (rnd_div_fin (r + d)) by lia.
      assert (- MAXF <= rnd_val (v - U) 1 <= - U).
      { split.
        - assert (X : rnd_val (- MAXF - U) 1 = - MAXF) by (vm_compute; reflexivity).
          rewrite <- X. apply rnd_val_mono; lia.
        - apply rnd_val_le; [lia|now apply b64_opp|lia]. }
      rewrite rnd_div_fin' by lia.
      exists (rnd_val (v - U) 1), (rnd_val (r + d) 1). split; [reflexivity|].
      split; [assumption|]. split.
      + split; [apply rnd_val_nonneg; lia|apply rnd_val_le; [lia|assumption|lia]].
      + apply rnd_val_frac. lia. }
  destruct Epair as (v1 & m & -> & Bv1 & Bm & Fv1).
  destruct (snap_spec v1 ltac:(lia) Fv1) as (q & Eq & Bq & Xq).
  exists q, m. rewrite Eq. split; [reflexivity|]. split; [|assumption].
  destruct (Z.eq_dec (v1 mod U) 0) as [E|E].
  - rewrite (Xq E). apply Z.mod_divide in E; [|lia]. destruct E as [j ->].
    rewrite Z.div_mul by lia. nia.
  - assert (v1 < - U).
    { destruct (Z.eq_dec v1 (- U)) as [->|]; [|lia]. exfalso. apply E.
      replace (- U) with (- 1 * U) by lia. apply Z.mod_mul. lia. }
    assert (v1 / U < - 1); [|lia].
    apply Z.div_lt_upper_bound; lia.
Qed.

Lemma below_forallb (P : Z -> bool) (b : nat) :
  forallb (fun k => P (Z.of_nat k)) (seq 0 b) = true ->
  forall n, 0 <= n < Z.of_nat b -> P n = true.
Proof.
  intros H n Hn. rewrite forallb_forall in H.
  specialize (H (Z.to_nat n)). rewrite Z2Nat.id in H by lia.
  apply H, in_seq. lia.
Qed.

Lemma fmt_0d_2 (n : Z) : 0 <= n < 100 -> fmt_0d 2 n = dd n.
Proof.
  intros H.
  apply (below_forallb (fun n => str_eqb (fmt_0d 2 n) (dd n)) 100) in H.
  - unfold str_eqb in H. now apply bool_decide_eq_true in H.
  - vm_compute. reflexivity.
Qed.

Lemma fmt_0d_3 (n : Z) : 0 <= n < 1000 -> fmt_0d 3 n = ddd n.
Proof.
  intros H.
  apply (below_forallb (fun n => str_eqb (fmt_0d 3 n) (ddd n)) 1000) in H.
  - unfold str_eqb in H. now apply bool_decide_eq_true in H.
  - vm_compute. reflexivity.
Qed.

Lemma floordiv_rem_nonneg (n c : Z) :
  0 <= n <= MAXF -> 1 <= c <= 2 ^ 53 ->
  exists q,
    floordiv (Fin n) (of_Z c) = Ok (Fin (q * U))
    /\ rem (Fin n) (of_Z c) = Ok (Fin (n mod (c * U)))
    /\ 0 <= q /\ (c * (n / (c * U)) <= 2 ^ 53 -> q = n / (c * U)).
Proof.
  intros Hn Hc. pose proof U_pos.
  destruct (float_div_mod_nonneg n c Hn Hc) as (q & E & Hq & X).
  exists q. unfold floordiv, rem. rewrite of_Z_exact by lia.
  rewrite nonzero_fin. destruct (Z.eqb_spec (c * U) 0); [nia|]. cbn [negb].
  rewrite E. auto.
Qed.

Lemma floordiv_rem_neg (n c : Z) :
  - MAXF <= n < 0 -> 1 <= c <= 2 ^ 53 ->
  exists f m,
    floordiv (Fin n) (of_Z c) = Ok (Fin (f * U))
    /\ rem (Fin n) (of_Z c) = Ok (Fin m)
    /\ f <= - 1 /\ 0 <= m <= c * U.
Proof.
  intros Hn Hc. pose proof U_pos.
  destruct (float_div_mod_neg n c Hn Hc) as (f & m & E & Hq & X).
  exists f, m. unfold floordiv, rem. rewrite of_Z_exact by lia.
  rewrite nonzero_fin. destruct (Z.eqb_spec (c * U) 0); [nia|]. cbn [negb].
  rewrite E. auto.
Qed.

Lemma int_fin_mul (q : Z) : int (Fin (q * U)) = Ok q.
Proof. unfold int. now rewrite quot_mul_U. Qed.

(** The hours, minutes and seconds of a non-negative time: what the first
    three lines of [format_timestamp] compute. *)
Lemma hms_nonneg (n : Z) :
  0 <= n <= MAXF ->
  exists hours,
    floordiv (Fin n) (of_Z 3600) = Ok (Fin (hours * U))
    /\ rem (Fin n) (of_Z 3600) = Ok (Fin (n mod (3600 * U)))
    /\ floordiv (Fin (n mod (3600 * U))) (of_Z 60)
       = Ok (Fin (n mod (3600 * U) / (60 * U) * U))
    /\ rem (Fin n) (of_Z 60) = Ok (Fin (n mod (60 * U)))
    /\ 0 <= hours /\ (n <= 2 ^ 53 * U -> hours = n / (3600 * U)).
Proof.
  intros Hn. pose proof U_pos as HU.
  assert (P53 : 2 ^ 53 = 9007199254740992) by reflexivity.
  destruct (floordiv_rem_nonneg n 3600 Hn ltac:(lia)) as (qh & E1 & E2 & Hq & X).
  pose proof (Z.mod_pos_bound n (3600 * U) ltac:(lia)) as Br.
  assert (HM : 3600 * U <= MAXF).
  { pose proof U_le_MAXF. assert (3600 <= 2 ^ 900) by zcompute. nia. }
  destruct (floordiv_rem_nonneg (n mod (3600 * U)) 60 ltac:(lia) ltac:(lia))
    as (qm & E3 & _ & _ & Xm).
  destruct (floordiv_rem_nonneg n 60 Hn ltac:(lia)) as (qs & _ & E4 & _ & _).
  exists qh. split; [assumption|]. split; [assumption|]. split.
  - rewrite E3, Xm; [reflexivity|].
    assert (n mod (3600 * U) / (60 * U) < 60); [|lia].
    apply Z.div_lt_upper_bound; lia.
  - split; [assumption|]. split; [assumption|]. intros Hb. apply X.
    assert (3600 * (n / (3600 * U)) <= 2 ^ 53); [|lia].
    remember (2 ^ 53) as p53. clear P53 Heqp53.
    pose proof (Z.mul_div_le n (3600 * U) ltac:(lia)).
    assert (0 <= n / (3600 * U)) by (apply Z.div_pos; lia).
    nia.
Qed.



(** The same computation for any seconds value between 0 and 60, which a
    negative time can give: it raises nothing. *)
Lemma subsecond_total (sc scale : Z) :
  0 <= sc <= 60 * U -> scale = 100 \/ scale = 1000 ->
  exists k,
    (forall (A : Type) (K : Z -> Z -> res A),
       (let! isecs := int (Fin sc) in
        let! frac := sub_int (Fin sc) isecs in
        let! x := mul_int frac scale in
        let! k' := int x in
        K isecs k') = K (sc / U) k)
    /\ 0 <= sc / U <= 60 /\ 0 <= k <= scale.
Proof.
  intros Hsc Hscale. pose proof U_pos as HU. pose proof U_le_MAXF' as HM.
  assert (P53 : 2 ^ 53 = 9007199254740992) by reflexivity.
  assert (Ei : int (Fin sc) = Ok (sc / U)).
  { unfold int. rewrite Z.quot_div_nonneg by lia. reflexivity. }
  assert (Hi : 0 <= sc / U <= 60).
  { split; [apply Z.div_pos; lia|]. apply Z.div_le_upper_bound; lia. }
  pose proof (Z.mod_pos_bound sc U HU) as Bfr.
  assert (BU : b64 U) by (replace U with (1 * U) by lia; apply b64_int; lia).
  assert (Es : sub_int (Fin sc) (sc / U) = Ok (Fin (rnd_val (sc mod U) 1))).
  { unfold sub_int. rewrite float_of_int_exact by lia. cbn [bind].
    rewrite fsub_fin. replace (sc - sc / U * U) with (sc mod U) by (rewrite Z.mod_eq; lia).
    now rewrite rnd_div_fin by lia. }
  pose proof (rnd_val_nonneg (sc mod U) 1 ltac:(lia) ltac:(lia)) as Pf.
  pose proof (rnd_val_le (sc mod U) 1 U ltac:(lia) BU ltac:(lia)) as Lf.
  set (f := rnd_val (sc mod U) 1) in *.
  assert (HS : scale * U <= MAXF).
  { pose proof U_le_MAXF. assert (1000 <= 2 ^ 900) by zcompute. nia. }
  assert (Em : mul_int (Fin f) scale = Ok (Fin (rnd_val (f * (scale * U)) U))).
  { unfold mul_int. rewrite float_of_int_exact by lia. cbn [bind].
    assert (0 <= scale * U) by nia.
    unfold fmul. rewrite rnd_div_fin; [reflexivity|lia|]. split; [nia|].
    rewrite (Z.mul_comm MAXF U). apply Z.mul_le_mono_nonneg; lia. }
  pose proof (rnd_val_nonneg (f * (scale * U)) U HU ltac:(nia)) as Pv.
  assert (Lv : rnd_val (f * (scale * U)) U <= scale * U).
  { apply rnd_val_le; [lia|apply b64_int; lia|].
    rewrite (Z.mul_comm f). apply Z.mul_le_mono_nonneg_l; lia. }
  set (v := rnd_val (f * (scale * U)) U) in *.
  exists (v / U). split.
  { intros A K. rewrite Ei. cbn [bind]. rewrite Es. cbn [bind]. rewrite Em. cbn [bind].
    unfold int. rewrite Z.quot_div_nonneg by lia. reflexivity. }
  split; [assumption|]. split; [apply Z.div_pos; lia|].
  apply Z.div_le_upper_bound; lia.
Qed.

(** Hours, minutes and seconds of a negative time: the hours are negative,
    and the minutes and seconds lie between 0 and 60. *)
Lemma hms_neg (n : Z) :
  - MAXF <= n < 0 ->
  exists hours r minutes sc,
    floordiv (Fin n) (of_Z 3600) = Ok (Fin (hours * U))
    /\ rem (Fin n) (of_Z 3600) = Ok (Fin r)
    /\ floordiv (Fin r) (of_Z 60) = Ok (Fin (minutes * U))
    /\ rem (Fin n) (of_Z 60) = Ok (Fin sc)
    /\ hours <= - 1 /\ 0 <= minutes <= 60 /\ 0 <= sc <= 60 * U.
Proof.
  intros Hn. pose proof U_pos as HU.
  assert (P53 : 2 ^ 53 = 9007199254740992) by reflexivity.
  destruct (floordiv_rem_neg n 3600 Hn ltac:(lia)) as (f & r & E1 & E2 & Hf & Hr).
  assert (HM : 3600 * U <= MAXF).
  { pose proof U_le_MAXF. assert (3600 <= 2 ^ 900) by zcompute. nia. }
  destruct (floordiv_rem_nonneg r 60 ltac:(lia) ltac:(lia)) as (qm & E3 & _ & Hqm & Xm).
  destruct (floordiv_rem_neg n 60 Hn ltac:(lia)) as (f' & sc & _ & E4 & _ & Hsc).
  exists f, r, qm, sc. repeat (split; [assumption|]).
  split; [|assumption]. split; [assumption|].
  assert (r / (60 * U) <= 60).
  { apply Z.div_le_upper_bound; lia. }
  assert (0 <= r / (60 * U)) by (apply Z.div_pos; lia).
  rewrite Xm; lia.
Qed.

Lemma b64_range (n : Z) : b64 n -> - MAXF <= n <= MAXF.
Proof. intros H. pose proof (b64_le_MAXF n H). lia. Qed.


Lemma mins_bound (n : Z) : 0 <= n mod (3600 * U) / (60 * U) < 60.
Proof.
  pose proof U_pos. pose proof (Z.mod_pos_bound n (3600 * U) ltac:(lia)).
  split; [apply Z.div_pos; lia|apply Z.div_lt_upper_bound; lia].
Qed.







(** C6, as the code has it: a negative time raises nothing; the formatter
    returns a string that starts with the minus sign of the hours. *)
Theorem format_timestamp_negative (n : Z) (format_type : str)
  (Hn : b64 n) (Hneg : n < 0)
  (Hf : format_type = lit "srt" \/ format_type = lit "ass") :
  exists s, format_timestamp (Fin n) format_type = Ok (lit "-" ++ s).
Proof.
  pose proof U_pos as HU. pose proof (b64_range n Hn) as HM.
  destruct (hms_neg n ltac:(lia)) as (hours & r & minutes & sc & E1 & E2 & E3 & E4 & Hh & Hm & Hsc).
  assert (Fh : forall w, exists s, fmt_0d w hours = lit "-" ++ s).
  { intros w. unfold fmt_0d. destruct (Z.ltb_spec hours 0); [|lia]. eauto. }
  assert (Sh : exists s, str_of_int hours = lit "-" ++ s).
  { unfold str_of_int. destruct (Z.ltb_spec hours 0); [|lia]. eauto. }
  unfold format_timestamp.
  rewrite E1. cbn [bind]. rewrite int_fin_mul. cbn [bind].
  rewrite E2. cbn [bind]. rewrite E3. cbn [bind]. rewrite int_fin_mul. cbn [bind].
  rewrite E4. cbn [bind].
  destruct Hf as [-> | ->].
  - change (str_eqb (lit "srt") (lit "srt")) with true. cbv iota.
    destruct (subsecond_total sc 1000 Hsc) as (k & K & _); [auto|].
    rewrite K. destruct (Fh 2%nat) as (s & ->). rewrite <- app_assoc. eauto.
  - change (str_eqb (lit "ass") (lit "srt")) with false.
    change (str_eqb (lit "ass") (lit "ass")) with true. cbv iota.
    destruct (subsecond_total sc 100 Hsc) as (k & K & _); [auto|].
    rewrite K. destruct Sh as (s & ->). rewrite <- app_assoc. eauto.
Qed.

Lemma format_timestamp_negative_witness :
  exists s, format_timestamp (Fin (- (3 * U / 2))) (lit "srt") = Ok (lit "-" ++ s).
Proof.
  apply (format_timestamp_negative (- (3 * U / 2)) (lit "srt")).
  - split; vm_compute; reflexivity.
  - vm_compute; reflexivity.
  - left; reflexivity.
Defined.

(** C6 as the specification states it does not hold: at -1.5 seconds the
    formatter returns a string. *)
Lemma format_timestamp_negative_no_error :
  format_timestamp (fopp (dec_lit 15 1)) (lit "srt") = Ok (lit "-1:59:58,500")
  /\ ~ (exists e, format_timestamp (fopp (dec_lit 15 1)) (lit "srt") = Raise e).
Proof.
  assert (E : format_timestamp (fopp (dec_lit 15 1)) (lit "srt") = Ok (lit "-1:59:58,500"))
    by (vm_compute; reflexivity).
  split; [exact E|]. intros [e He]. rewrite E in He. discriminate.
Qed.



Lemma single_line_cons (c : N) (s : str) : c <> LF -> single_line s -> single_line (c :: s).
Proof. intros H1 H2 [E|E]; [congruence|contradiction]. Qed.

Lemma lines_nonnil (s : str) : lines s <> [].
Proof.
  induction s as [|c s IH]; cbn; [discriminate|].
  destruct (c =? LF)%N; [discriminate|]. destruct (lines s); [contradiction|discriminate].
Qed.












(** *** [strip] *)






(** Every finite time has its four fields. *)
Lemma timestamp_fields (n : Z) :
  - MAXF <= n <= MAXF ->
  exists hours r minutes sc,
    floordiv (Fin n) (of_Z 3600) = Ok (Fin (hours * U))
    /\ rem (Fin n) (of_Z 3600) = Ok (Fin r)
    /\ floordiv (Fin r) (of_Z 60) = Ok (Fin (minutes * U))
    /\ rem (Fin n) (of_Z 60) = Ok (Fin sc)
    /\ 0 <= sc <= 60 * U.
Proof.
  intros Hn. pose proof U_pos as HU.
  destruct (Z.le_gt_cases 0 n) as [Hp|Hneg].
  - destruct (hms_nonneg n ltac:(lia)) as (hours & E1 & E2 & E3 & E4 & _).
    pose proof (Z.mod_pos_bound n (60 * U) ltac:(lia)).
    exists hours, (n mod (3600 * U)), (n mod (3600 * U) / (60 * U)), (n mod (60 * U)).
    repeat (split; [assumption|]). lia.
  - destruct (hms_neg n ltac:(lia)) as (hours & r & minutes & sc & E1 & E2 & E3 & E4 & _ & _ & Hsc).
    exists hours, r, minutes, sc. auto.
Qed.





























(** The operations above against the IEEE 754 specification of the standard
    library, on the numbers of this example. *)
Example gap_agrees_with_SpecFloat :
  let six_tenths := SFdiv 53 1024 (to_SF (of_Z 6)) (to_SF (of_Z 10)) in
  let five_tenths := SFdiv 53 1024 (to_SF (of_Z 5)) (to_SF (of_Z 10)) in
  to_SF (dec_lit 6 1) = six_tenths
  /\ to_SF (dec_lit 5 1) = five_tenths
  /\ to_SF (fsub (dec_lit 6 1) (dec_lit 5 1)) = SFsub 53 1024 six_tenths five_tenths
  /\ to_SF (fmul (fsub (dec_lit 6 1) (dec_lit 5 1)) (of_Z 100))
     = SFmul 53 1024 (SFsub 53 1024 six_tenths five_tenths) (to_SF (of_Z 100))
  /\ SFltb (SFmul 53 1024 (SFsub 53 1024 six_tenths five_tenths) (to_SF (of_Z 100)))
           (to_SF (of_Z 10)) = true.
Proof. vm_compute. repeat split. Qed.

Lemma headroom_val_mono (m m' : Z) : m <= m' -> headroom_val m <= headroom_val m'.
Proof.
  intros H. pose proof U_pos. unfold headroom_val.
  assert (0 <= rnd_val (7 * U) (10 ^ 1)) by zcompute.
  apply rnd_val_mono; [lia|]. apply Z.mul_le_mono_nonneg_r; [assumption|].
  apply rnd_val_mono; nia.
Qed.

Lemma int_mul_headroom (m : Z) :
  Z.abs m < FLOAT_INT_BOUND ->
  int_mul m (dec_lit 7 1) = Ok (Fin (headroom_val m)).
Proof.
  intros Hm. pose proof U_pos as HU.
  assert (Ec : dec_lit 7 1 = Fin (rnd_val (7 * U) (10 ^ 1))) by (vm_compute; reflexivity).
  assert (Hp : 0 <= rnd_val (7 * U) (10 ^ 1) <= U) by (split; zcompute).
  assert (Top : rnd_val ((FLOAT_INT_BOUND - 1) * U) 1 = MAXF) by (vm_compute; reflexivity).
  assert (Hx : - MAXF <= rnd_val (m * U) 1 <= MAXF).
  { split.
    - rewrite <- Top, <- rnd_val_opp by lia. apply rnd_val_mono; [lia|nia].
    - rewrite <- Top. apply rnd_val_mono; [lia|nia]. }
  unfold int_mul, float_of_int, of_Z. rewrite rnd_div_fin' by assumption. cbn [bind].
  rewrite Ec. unfold fmul, headroom_val.
  set (x := rnd_val (m * U) 1) in *. set (p := rnd_val (7 * U) (10 ^ 1)) in *.
  rewrite rnd_div_fin; [reflexivity|lia|]. pose proof U_le_MAXF'. nia.
Qed.

(** The float comparison [size < 0.7 * m] decides [10 * size < 7 * m] for
    each footprint of the table. *)
Lemma headroom_test (size m : Z) :
  In size (map snd model_sizes) ->
  (size * U <? headroom_val m) = (10 * size <? 7 * m).
Proof.
  intros Hin. set (t := 10 * size / 7 + 1).
  assert (Hlo : headroom_val (t - 1) <= size * U /\ size * U < headroom_val t
                /\ 10 * size < 7 * t /\ 7 * (t - 1) <= 10 * size).
  { unfold t. cbn in Hin.
    repeat (destruct Hin as [<-|Hin]; [repeat split; zcompute|]). contradiction. }
  destruct Hlo as (L1 & L2 & L3 & L4).
  destruct (Z.ltb_spec (10 * size) (7 * m)) as [Hc|Hc].
  - apply Z.ltb_lt. pose proof (headroom_val_mono t m ltac:(lia)). lia.
  - apply Z.ltb_ge. pose proof (headroom_val_mono m (t - 1) ltac:(lia)). lia.
Qed.

Lemma first_fitting_find (table : list (str * Z)) (m : Z) :
  (forall entry, In entry table -> In (snd entry) (map snd model_sizes)) ->
  first_fitting table (Fin (headroom_val m)) = first_below_headroom table m.
Proof.
  unfold first_below_headroom.
  induction table as [|[model size] rest IH]; intros Hin; cbn [first_fitting List.find].
  - reflexivity.
  - unfold int_lt_float. rewrite headroom_test by (apply (Hin (model, size)); now left).
    cbn [snd]. destruct (10 * size <? 7 * m); [reflexivity|].
    apply IH. intros e He. apply Hin. now right.
Qed.



Lemma replace_char_keeps (Q : N -> Prop) (old : N) (s : str) :
  Q UNDERSCORE -> Forall Q s -> Forall Q (replace_char old (lit "_") s).
Proof.
  intros Hq H. unfold replace_char. induction H as [|c s Hc _ IH]; cbn; [constructor|].
  destruct (N.eqb c old); cbn; constructor; auto.
Qed.

Lemma replace_char_removes (old : N) (s : str) :
  old <> UNDERSCORE -> Forall (fun c => c <> old) (replace_char old (lit "_") s).
Proof.
  intros Ho. unfold replace_char. induction s as [|c s IH]; cbn; [constructor|].
  destruct (N.eqb_spec c old); cbn; constructor; auto.
Qed.

Lemma replace_char_id (old : N) (new s : str) :
  Forall (fun c => c <> old) s -> replace_char old new s = s.
Proof.
  unfold replace_char. induction 1 as [|c s Hc _ IH]; cbn; [reflexivity|].
  destruct (N.eqb_spec c old); [contradiction|]. cbn. now rewrite IH.
Qed.

Lemma replace_all_keeps (Q : N -> Prop) (chars s : str) :
  Q UNDERSCORE -> Forall Q s -> Forall Q (replace_all chars s).
Proof.
  intros Hq. revert s. unfold replace_all.
  induction chars as [|a chars IH]; intros s H; cbn; [assumption|].
  apply IH. now apply replace_char_keeps.
Qed.

Lemma replace_all_removes (chars s : str) (k : N) :
  ~ In UNDERSCORE chars -> In k chars -> Forall (fun c => c <> k) (replace_all chars s).
Proof.
  revert s. induction chars as [|a chars IH]; intros s Hu Hk; [destruct Hk|].
  change (replace_all (a :: chars) s) with (replace_all chars (replace_char a (lit "_") s)).
  destruct (N.eq_dec a k) as [->|Hne].
  - apply replace_all_keeps.
    + intros E. apply Hu. left. now symmetry.
    + apply replace_char_removes. intros E. apply Hu. now left.
  - apply IH.
    + intros X. apply Hu. now right.
    + destruct Hk; [contradiction|assumption].
Qed.

Lemma replace_all_id (chars s : str) :
  Forall (fun c => ~ In c chars) s -> replace_all chars s = s.
Proof.
  revert s. induction chars as [|a chars IH]; intros s H; [reflexivity|].
  change (replace_all (a :: chars) s) with (replace_all chars (replace_char a (lit "_") s)).
  rewrite replace_char_id.
  - apply IH. eapply Forall_impl; [|exact H]. cbn. intros c Hc X. apply Hc. now right.
  - eapply Forall_impl; [|exact H]. cbn. intros c Hc E. apply Hc. now left.
Qed.

Lemma re_sub_keeps (Q : N -> Prop) (b : bool) (s : str) :
  Q UNDERSCORE -> Forall Q s -> Forall Q (re_sub_non_ascii (lit "_") b s).
Proof.
  intros Hq H. revert b. induction H as [|c s Hc _ IH]; intros b; cbn; [constructor|].
  destruct (127 <? c)%N.
  - destruct b; cbn; [apply IH|constructor; [assumption|apply IH]].
  - constructor; [assumption|apply IH].
Qed.

Lemma re_sub_ascii (b : bool) (s : str) :
  Forall (fun c => (c <= 127)%N) (re_sub_non_ascii (lit "_") b s).
Proof.
  revert b. induction s as [|c s IH]; intros b; cbn; [constructor|].
  destruct (N.ltb_spec 127 c).
  - destruct b; cbn; [apply IH|constructor; [unfold N.le; cbn; discriminate|apply IH]].
  - constructor; [assumption|apply IH].
Qed.

Lemma re_sub_id (repl : str) (b : bool) (s : str) :
  Forall (fun c => (c <= 127)%N) s -> re_sub_non_ascii repl b s = s.
Proof.
  intros H. revert b. induction H as [|c s Hc _ IH]; intros b; cbn; [reflexivity|].
  destruct (N.ltb_spec 127 c); [lia|]. now rewrite IH.
Qed.

Lemma sanitize_filename_eq (filename : str) :
  sanitize_filename filename
  = let s := re_sub_non_ascii (lit "_") false
               (replace_char 32%N (lit "_") (replace_all invalid_chars filename)) in
    if (100 <? List.length s)%nat then firstn 100 s else s.
Proof. reflexivity. Qed.

Lemma sanitize_filename_clean (filename : str) :
  Forall clean_char (sanitize_filename filename)
  /\ (List.length (sanitize_filename filename) <= 100)%nat.
Proof.
  rewrite sanitize_filename_eq. cbv zeta.
  set (s1 := replace_all invalid_chars filename).
  set (s2 := replace_char 32%N (lit "_") s1).
  set (s3 := re_sub_non_ascii (lit "_") false s2).
  assert (H3 : Forall clean_char s3).
  { apply Forall_forall. intros c Hc. repeat split.
    - pose proof (re_sub_ascii false s2) as A. rewrite Forall_forall in A. now apply A.
    - intros Hk.
      assert (Hu : UNDERSCORE <> c).
      { intros E. rewrite <- E in Hk. vm_compute in Hk. intuition discriminate. }
      assert (A : Forall (fun x => x <> c) s3).
      { apply re_sub_keeps; [assumption|]. apply replace_char_keeps; [assumption|].
        apply replace_all_removes; [vm_compute; intuition discriminate|assumption]. }
      rewrite Forall_forall in A. now apply (A c).
    - assert (A : Forall (fun x => x <> 32%N) s3).
      { apply re_sub_keeps; [discriminate|]. apply replace_char_removes. discriminate. }
      rewrite Forall_forall in A. now apply A. }
  destruct (Nat.ltb_spec 100 (List.length s3)).
  - split; [|rewrite length_firstn; lia].
    rewrite <- (firstn_skipn 100 s3) in H3. now apply Forall_app in H3.
  - split; [assumption|lia].
Qed.

Lemma sanitize_filename_fixed (s : str) :
  Forall clean_char s -> (List.length s <= 100)%nat -> sanitize_filename s = s.
Proof.
  intros H Hl. rewrite sanitize_filename_eq. cbv zeta.
  rewrite replace_all_id, replace_char_id, re_sub_id.
  - destruct (Nat.ltb_spec 100 (List.length s)); [lia|reflexivity].
  - eapply Forall_impl; [|exact H]. intros c (A & _). exact A.
  - eapply Forall_impl; [|exact H]. intros c (_ & _ & A). exact A.
  - eapply Forall_impl; [|exact H]. intros c (_ & A & _). exact A.
Qed.

(** C8, for the characters the code does exclude.  For every input,
    [sanitize_filename] returns at most 100 characters, all of them ASCII,
    none of them one of the nine invalid characters, none a space. *)
Theorem sanitize_filename_chars (filename : str) :
  (List.length (sanitize_filename filename) <= 100)%nat
  /\ Forall (fun c => (c <= 127)%N /\ ~ In c invalid_chars /\ c <> 32%N)
            (sanitize_filename filename).
Proof. destruct (sanitize_filename_clean filename). split; assumption. Qed.

(** C8 as the specification states it does not hold: a hyphen and a dot
    pass through. *)
Lemma sanitize_filename_keeps_hyphen :
  sanitize_filename (lit "a-b.c") = lit "a-b.c"
  /\ forallb is_word_char (sanitize_filename (lit "a-b.c")) = false.
Proof. split; vm_compute; reflexivity. Qed.

(** C10.  [sanitize_filename] is idempotent: sanitizing a sanitized name
    changes nothing. *)
Theorem sanitize_filename_idempotent (filename : str) :
  sanitize_filename (sanitize_filename filename) = sanitize_filename filename.
Proof.
  destruct (sanitize_filename_clean filename). now apply sanitize_filename_fixed.
Qed.

Lemma ebind_ok {A B : Type} (m : eff A) (k : A -> eff B) (fs fs' : filesystem) (b : B) :
  ebind m k fs = (fs', Ok b) ->
  exists fs1 a, m fs = (fs1, Ok a) /\ k a fs1 = (fs', Ok b).
Proof.
  unfold ebind. destruct (m fs) as [fs1 [a|e]]; [eauto|discriminate].
Qed.

(** Removing a path when it exists, when it succeeds, leaves the file
    system without that path and otherwise as it was. *)
Lemma remove_if_exists_ok (q : str) (fs fs' : filesystem) :
  (if path_exists q fs then os_remove q fs else (fs, Ok tt)) = (fs', Ok tt) ->
  fs' = delete q fs.
Proof.
  unfold path_exists, os_remove. destruct (fs !! q) as [[c|]|] eqn:E.
  - rewrite bool_decide_eq_true_2 by eauto. now intros [= <-].
  - rewrite bool_decide_eq_true_2 by eauto. discriminate.
  - rewrite bool_decide_eq_false_2 by (intros [x Hx]; discriminate).
    intros [= <-]. symmetry. now apply delete_id.
Qed.

Lemma cleanup_ok (a : Args) (p : Paths) (fs fs' : filesystem) :
  cleanup a p fs = (fs', Ok tt) ->
  fs' ⊆ fs
  /\ fs' !! temp_audio p = None
  /\ (forall d, downloaded_file p = Some d -> d <> [] -> keep_video a = false ->
      fs' !! d = None /\ fs' !! media_path p = None)
  /\ (truthy (downloaded_file p) && negb (keep_video a) = false ->
      fs' = delete (temp_audio p) fs).
Proof.
  unfold cleanup. intros H. apply ebind_ok in H. destruct H as (fs1 & [] & H1 & H).
  apply remove_if_exists_ok in H1. subst fs1.
  destruct (truthy (downloaded_file p) && negb (keep_video a)) eqn:Hc.
  - apply ebind_ok in H. destruct H as (fs2 & [] & H2 & H3).
    apply remove_if_exists_ok in H2. subst fs2.
    apply andb_true_iff in Hc. destruct Hc as [Ht Hk].
    destruct (downloaded_file p) as [d|] eqn:Ed; [|discriminate].
    cbn [default from_option] in *. unfold id in *.
    set (fs2 := delete d (delete (temp_audio p) fs)) in *.
    assert (S2 : fs2 ⊆ fs).
    { unfold fs2. etransitivity; apply delete_subseteq. }
    assert (T2 : fs2 !! temp_audio p = None).
    { unfold fs2. apply lookup_delete_None. right. apply lookup_delete_eq. }
    assert (D2 : fs2 !! d = None) by apply lookup_delete_eq.
    assert (X : fs' ⊆ fs2 /\ fs' !! media_path p = None).
    { cbv beta in H3. destruct (str_eqb d (media_path p)) eqn:E; cbn [negb andb] in H3.
      - apply bool_decide_eq_true in E. injection H3 as <-.
        split; [reflexivity|]. now rewrite <- E.
      - apply remove_if_exists_ok in H3. subst fs'.
        split; [apply delete_subseteq|apply lookup_delete_eq]. }
    destruct X as [S3 M3].
    split; [etransitivity; eassumption|].
    split; [eapply lookup_weaken_None; eassumption|].
    split; [|discriminate].
    intros d' [= <-] _ _. split; [eapply lookup_weaken_None; eassumption|assumption].
  - injection H as <-. split; [apply delete_subseteq|].
    split; [apply lookup_delete_eq|]. split; [|reflexivity].
    intros d Ed Hd Hk. rewrite Ed, Hk in Hc. destruct d; [contradiction|discriminate].
Qed.

Lemma download_nonempty (env : Env) (url output_dir resolution result : str)
  (fs fs' : filesystem) :
  download_youtube_video env url output_dir resolution fs = (fs', (true, result)) ->
  result <> [] /\ is_Some (fs' !! result).
Proof.
  unfold download_youtube_video.
  destruct (yt_dlp env url output_dir resolution fs) as [fs1 [msg|[[|c p]|]]]; try discriminate.
  destruct (path_exists (c :: p) fs1) eqn:E; [|discriminate].
  apply bool_decide_eq_true in E.
  intros [= <- <-]. split; [discriminate|assumption].
Qed.

Lemma resolve_input_downloaded (env : Env) (a : Args) (fs fs' : filesystem)
  (d ip : str) :
  resolve_input env a fs = (fs', Ok (inr (Some d, ip))) -> d <> [].
Proof.
  unfold resolve_input. destruct (is_youtube_url env (input_path a)); [|discriminate].
  destruct (download_youtube_video env _ _ _ fs) as [fs1 [[|] result]] eqn:Ed; [|discriminate].
  apply download_nonempty in Ed. destruct Ed as [Hne _].
  destruct (negb (str_eqb result _)).
  - intros H. apply ebind_ok in H. destruct H as (fs2 & [] & _ & H).
    unfold eret in H. now injection H as _ <- _.
  - now intros [= _ <- _].
Qed.

(** What a completed run went through: the state before the clean-up. *)
Lemma process_media_completed (env : Env) (a : Args) (fs fs' : filesystem) (p : Paths) :
  process_media env a fs = (fs', Ok (Completed p)) ->
  exists fs0, cleanup a p fs0 = (fs', Ok tt)
    /\ (forall d, downloaded_file p = Some d -> d <> []).
Proof.
  unfold process_media. intros H.
  apply ebind_ok in H. destruct H as (fs1 & [] & _ & H).
  apply ebind_ok in H. destruct H as (fs2 & [] & _ & H).
  apply ebind_ok in H. destruct H as (fs3 & r & Hr & H).
  destruct r as [msg|[df ip]]; [discriminate|].
  apply ebind_ok in H. destruct H as (fs4 & audio_path & _ & H).
  destruct (detect_device_and_compute_type env (device a) (compute_type a)) as [dv ct].
  apply ebind_ok in H. destruct H as (fs5 & segs & _ & H).
  apply ebind_ok in H. destruct H as (fs6 & [] & _ & H).
  apply ebind_ok in H. destruct H as (fs7 & [] & Hc & H).
  unfold eret in H. injection H as <- <-.
  exists fs6. split; [exact Hc|]. cbn [downloaded_file].
  intros d ->. eapply resolve_input_downloaded, Hr.
Qed.

(** C9.  After every run of [process_media] that completes, nothing lies
    at the path of the temporary audio file, whatever [keep_video] is; and
    when the run downloaded a video and [keep_video] is false, nothing lies
    at the path of the downloaded file nor at the path of its sanitized
    copy. *)
Theorem process_media_cleanup (env : Env) (a : Args) (fs fs' : filesystem) (p : Paths)
  (Hrun : process_media env a fs = (fs', Ok (Completed p))) :
  fs' !! temp_audio p = None
  /\ (forall d, downloaded_file p = Some d -> keep_video a = false ->
      fs' !! d = None /\ fs' !! media_path p = None).
Proof.
  destruct (process_media_completed env a fs fs' p Hrun) as (fs0 & Hc & Hd).
  destruct (cleanup_ok a p fs0 fs' Hc) as (_ & Ht & Hrm & _).
  split; [assumption|]. intros d Ed Hk. apply (Hrm d Ed (Hd d Ed) Hk).
Qed.

Lemma demo_run :
  exists fs',
    process_media demo_env demo_args ∅
    = (fs', Ok (Completed {| downloaded_file := Some (lit "out/my video.mp4");
                             media_path := lit "out/my_video.mp4";
                             temp_audio := lit "out/my_video_temp.wav" |})).
Proof. eexists. vm_compute. reflexivity. Qed.

Lemma process_media_cleanup_witness :
  exists fs',
    fst (process_media demo_env demo_args ∅) = fs'
    /\ fs' !! lit "out/my_video_temp.wav" = None
    /\ fs' !! lit "out/my video.mp4" = None
    /\ fs' !! lit "out/my_video.mp4" = None.
Proof.
  destruct demo_run as (fs' & E). exists fs'. split; [now rewrite E|].
  destruct (process_media_cleanup demo_env demo_args ∅ fs' _ E) as (Ht & Hd).
  split; [exact Ht|]. exact (Hd _ eq_refl eq_refl).
Defined.

(** *** [format_timestamp] outside the two subtitle formats *)

(** [format_timestamp] returns a string on every binary64 time, whatever the
    format type. *)
Theorem format_timestamp_finite (x : float) (format_type : str) (Hx : finite x) :
  exists s, format_timestamp x format_type = Ok s.
Proof.
  destruct x as [n| |]; cbn [finite] in Hx; try contradiction.
  pose proof (b64_range n Hx) as HM.
  destruct (timestamp_fields n HM) as (hours & r & minutes & sc & E1 & E2 & E3 & E4 & Hsc).
  unfold format_timestamp.
  rewrite E1. cbn [bind]. rewrite int_fin_mul. cbn [bind].
  rewrite E2. cbn [bind]. rewrite E3. cbn [bind]. rewrite int_fin_mul. cbn [bind].
  rewrite E4. cbn [bind].
  destruct (str_eqb format_type (lit "srt")).
  - destruct (subsecond_total sc 1000 Hsc) as (k & K & _); [auto|].
    rewrite K. eauto.
  - destruct (str_eqb format_type (lit "ass")).
    + destruct (subsecond_total sc 100 Hsc) as (k & K & _); [auto|].
      rewrite K. eauto.
    + eauto.
Qed.

Lemma format_timestamp_finite_witness :
  exists s, format_timestamp (of_Z 90) (lit "vtt") = Ok s.
Proof.
  apply (format_timestamp_finite (of_Z 90) (lit "vtt")).
  vm_compute. split; reflexivity.
Defined.

(** On an infinity or a NaN the floor division by 3600 gives a NaN, and
    [int()] of it raises [ValueError], whatever the format type. *)
Theorem format_timestamp_not_finite (format_type : str) :
  format_timestamp (Inf false) format_type = Raise ValueError
  /\ format_timestamp (Inf true) format_type = Raise ValueError
  /\ format_timestamp NaN format_type = Raise ValueError.
Proof.
  unfold format_timestamp.
  replace (floordiv (Inf false) (of_Z 3600)) with (@Ok float NaN) by (vm_compute; reflexivity).
  replace (floordiv (Inf true) (of_Z 3600)) with (@Ok float NaN) by (vm_compute; reflexivity).
  replace (floordiv NaN (of_Z 3600)) with (@Ok float NaN) by (vm_compute; reflexivity).
  cbn [bind int]. auto.
Qed.

(** Any other format type: the hours and the minutes on two digits, then the
    seconds with three decimals, rounded to the nearest thousandth (ties to
    even) and not padded; the rounding reaches 60.000. *)
Theorem format_timestamp_other (n : Z) (format_type : str)
  (Hn : b64 n) (Hr : 0 <= n <= 359999 * U)
  (Hsrt : format_type <> lit "srt") (Hass : format_type <> lit "ass") :
  let t := rne_div (n mod (60 * U) * 1000) U in
  format_timestamp (Fin n) format_type
  = Ok (dd (n / (3600 * U)) ++ lit ":" ++ dd (n mod (3600 * U) / (60 * U))
        ++ lit ":" ++ digits (Z.to_N (t / 1000)) ++ lit "." ++ ddd (t mod 1000))
  /\ 0 <= t <= 60000
  /\ 2 * Z.abs (t * U - n mod (60 * U) * 1000) <= U.
Proof.
  intros t. pose proof U_pos as HU.
  assert (HM : 359999 * U <= MAXF).
  { pose proof U_le_MAXF. assert (359999 <= 2 ^ 900) by zcompute. nia. }
  assert (H53 : 359999 * U <= 2 ^ 53 * U).
  { assert (359999 <= 2 ^ 53) by zcompute. nia. }
  destruct (hms_nonneg n ltac:(lia)) as (hours & E1 & E2 & E3 & E4 & Hh & Eh).
  rewrite Eh in * by lia. clear Eh.
  assert (Bh : 0 <= n / (3600 * U) < 100).
  { split; [apply Z.div_pos; lia|]. apply Z.div_lt_upper_bound; lia. }
  pose proof (mins_bound n) as Bm.
  pose proof (Z.mod_pos_bound n (60 * U) ltac:(lia)) as Bs.
  assert (Bt : 0 <= t <= 60000).
  { unfold t. split; [apply rne_div_lb; lia|apply rne_div_ub; lia]. }
  split; [|split; [exact Bt|apply rne_div_err; lia]].
  unfold format_timestamp.
  rewrite E1. cbn [bind]. rewrite int_fin_mul. cbn [bind].
  rewrite E2. cbn [bind]. rewrite E3. cbn [bind]. rewrite int_fin_mul. cbn [bind].
  rewrite E4. cbn [bind].
  unfold str_eqb. rewrite !bool_decide_eq_false_2 by assumption.
  rewrite !fmt_0d_2 by lia.
  unfold fmt_3f. destruct (Z.ltb_spec (n mod (60 * U)) 0) as [|_]; [lia|].
  rewrite Z.abs_eq by lia. fold t.
  rewrite fmt_0d_3 by (apply Z.mod_pos_bound; lia).
  reflexivity.
Qed.

Lemma format_timestamp_other_witness :
  format_timestamp (dec_lit 599996 4) (lit "vtt") = Ok (lit "00:00:60.000").
Proof.
  assert (E : dec_lit 599996 4 = Fin (rnd_val (599996 * U) (10 ^ 4)))
    by (vm_compute; reflexivity).
  rewrite E.
  destruct (format_timestamp_other (rnd_val (599996 * U) (10 ^ 4)) (lit "vtt")) as (H & _).
  - vm_compute. split; reflexivity.
  - vm_compute. split; discriminate.
  - vm_compute. discriminate.
  - vm_compute. discriminate.
  - rewrite H. vm_compute. reflexivity.
Defined.

Lemma replace_char_map (old : N) (s : str) :
  replace_char old (lit "_") s = map (fun c => if N.eqb c old then UNDERSCORE else c) s.
Proof.
  unfold replace_char. change (lit "_") with [UNDERSCORE].
  induction s as [|c s IH]; cbn [flat_map map]; [reflexivity|].
  rewrite IH. now destruct (N.eqb c old).
Qed.

Lemma replace_char_length (old : N) (s : str) :
  List.length (replace_char old (lit "_") s) = List.length s.
Proof. rewrite replace_char_map. apply List.length_map. Qed.

Lemma replace_all_length (chars s : str) :
  List.length (replace_all chars s) = List.length s.
Proof.
  revert s. unfold replace_all. induction chars as [|a chars IH]; intros s; cbn; [reflexivity|].
  rewrite IH. apply replace_char_length.
Qed.

Lemma replace_all_map (chars s : str) :
  ~ In UNDERSCORE chars ->
  replace_all chars s = map (fun c => if existsb (N.eqb c) chars then UNDERSCORE else c) s.
Proof.
  revert s. unfold replace_all.
  induction chars as [|a chars IH]; intros s Hu; cbn [fold_left existsb].
  - now rewrite map_id.
  - rewrite IH by (intros X; apply Hu; now right).
    rewrite replace_char_map, map_map. apply map_ext. intros c.
    destruct (N.eqb_spec c a) as [->|Hne]; cbn [orb].
    + destruct (existsb (N.eqb UNDERSCORE) chars) eqn:E; [reflexivity|].
      destruct (existsb (N.eqb a) chars); reflexivity.
    + reflexivity.
Qed.

Lemma re_sub_length (b : bool) (s : str) :
  (List.length (re_sub_non_ascii (lit "_") b s) <= List.length s)%nat.
Proof.
  revert b. induction s as [|c s IH]; intros b; cbn [re_sub_non_ascii List.length]; [lia|].
  destruct (127 <? c)%N.
  - rewrite List.length_app. specialize (IH true).
    change (lit "_") with [UNDERSCORE] in *. destruct b; cbn [List.length]; lia.
  - cbn [List.length]. specialize (IH false). lia.
Qed.

Lemma re_sub_nonempty (c : N) (s : str) :
  re_sub_non_ascii (lit "_") false (c :: s) <> [].
Proof. cbn [re_sub_non_ascii]. destruct (127 <? c)%N; discriminate. Qed.

(** On an ASCII name the sanitiser works character by character: each of the
    nine invalid characters and the space becomes an underscore, every other
    character stays, and the first hundred characters are kept. *)
Theorem sanitize_filename_ascii (filename : str)
  (Hascii : Forall (fun c => (c <= 127)%N) filename) :
  sanitize_filename filename = firstn 100 (map sanitize_char filename).
Proof.
  rewrite sanitize_filename_eq. cbv zeta.
  rewrite replace_all_map
    by (cbn; intros X; repeat (destruct X as [X|X]; [discriminate X|]); exact X).
  rewrite replace_char_map, map_map.
  rewrite re_sub_id.
  - erewrite map_ext; [|intros c; reflexivity].
    assert (E : map (fun c => if N.eqb (if existsb (N.eqb c) invalid_chars then UNDERSCORE else c) 32
                              then UNDERSCORE
                              else if existsb (N.eqb c) invalid_chars then UNDERSCORE else c)
                    filename
                = map sanitize_char filename).
    { apply map_ext. intros c. unfold sanitize_char.
      destruct (existsb (N.eqb c) invalid_chars); [reflexivity|]. cbn [orb].
      now destruct (N.eqb c 32). }
    rewrite E.
    destruct (Nat.ltb_spec 100 (List.length (map sanitize_char filename))); [reflexivity|].
    now rewrite firstn_all2.
  - apply Forall_map. eapply Forall_impl; [|exact Hascii]. intros c Hc.
    assert (Hu : (UNDERSCORE <= 127)%N) by (unfold N.le; cbn; discriminate).
    cbv beta.
    destruct (existsb (N.eqb c) invalid_chars);
      [destruct (N.eqb UNDERSCORE 32)|destruct (N.eqb c 32)]; assumption.
Qed.

Lemma sanitize_filename_ascii_witness :
  sanitize_filename (lit "my video: part 1?.mp4")
  = firstn 100 (map sanitize_char (lit "my video: part 1?.mp4")).
Proof.
  apply (sanitize_filename_ascii (lit "my video: part 1?.mp4")).
  vm_compute. repeat constructor; discriminate.
Defined.

(** The sanitiser never lengthens a name, and it empties no name. *)
Theorem sanitize_filename_length (filename : str) :
  (List.length (sanitize_filename filename) <= List.length filename)%nat
  /\ (sanitize_filename filename = [] <-> filename = []).
Proof.
  rewrite sanitize_filename_eq. cbv zeta.
  set (s2 := replace_char 32%N (lit "_") (replace_all invalid_chars filename)).
  assert (L2 : List.length s2 = List.length filename).
  { unfold s2. now rewrite replace_char_length, replace_all_length. }
  pose proof (re_sub_length false s2) as L3.
  set (s3 := re_sub_non_ascii (lit "_") false s2) in *.
  assert (N3 : s3 = [] -> filename = []).
  { intros E. destruct filename as [|c f]; [reflexivity|].
    destruct s2 as [|c2 f2]; [discriminate L2|].
    exfalso. exact (re_sub_nonempty c2 f2 E). }
  split.
  - destruct (Nat.ltb_spec 100 (List.length s3)); [rewrite length_firstn|]; lia.
  - split.
    + destruct (Nat.ltb_spec 100 (List.length s3)) as [Hl|Hl]; [|exact N3].
      intros E. destruct s3; [cbn in Hl; lia|discriminate E].
    + intros ->. reflexivity.
Qed.

(** The names the sanitiser leaves as they are: exactly the ASCII names of
    at most a hundred characters with no invalid character and no space. *)
Theorem sanitize_filename_fixed_points (filename : str) :
  sanitize_filename filename = filename
  <-> Forall clean_char filename /\ (List.length filename <= 100)%nat.
Proof.
  split.
  - intros E. rewrite <- E. apply sanitize_filename_clean.
  - intros [H L]. now apply sanitize_filename_fixed.
Qed.


Lemma srt_loop_app (xs ys : list Segment.t) :
  forall (i : Z) (f : file),
    srt_loop i (xs ++ ys) f
    = match srt_loop i xs f with
      | (f', Ok _) => srt_loop (i + Z.of_nat (List.length xs)) ys f'
      | (f', Raise e) => (f', Raise e)
      end.
Proof.
  induction xs as [|x xs IH]; intros i f.
  - cbn [srt_loop app List.length]. now rewrite Z.add_0_r.
  - cbn [srt_loop app]. destruct (srt_block i x) as [block|e]; [|reflexivity].
    rewrite IH. cbn [List.length].
    now replace (i + 1 + Z.of_nat (List.length xs)) with (i + Z.of_nat (S (List.length xs))) by lia.
Qed.

(** [create_srt] writes in sequence: the file of a list followed by another
    is the file of the first list, continued with the blocks of the second,
    numbered from where the first list ends; and when the first list makes
    the writer raise, the second is not looked at. *)
Theorem create_srt_app (xs ys : list Segment.t) :
  create_srt (xs ++ ys)
  = match create_srt xs with
    | (f, Ok _) => srt_loop (1 + Z.of_nat (List.length xs)) ys f
    | (f, Raise e) => (f, Raise e)
    end.
Proof. unfold create_srt. apply srt_loop_app. Qed.



(** With the karaoke effect off [create_ass] does not look at the words of
    the segments, and with the effect on an empty word list counts as none:
    the file is the one of the segments without these words. *)
Theorem create_ass_without_words (str_lower : str -> str) (segments : list Segment.t)
  (title : str) (karaoke : bool) (style color : str) :
  create_ass str_lower (map (without_words karaoke) segments) title karaoke style color
  = create_ass str_lower segments title karaoke style color.
Proof.
  unfold create_ass.
  generalize (write (ass_header title
                (default (ASS_COLORS !!! lit "white") (ASS_COLORS !! str_lower color))) []).
  induction segments as [|segment rest IH]; intros f; [reflexivity|].
  cbn [map ass_loop].
  assert (E : ass_dialogue karaoke style (without_words karaoke segment)
              = ass_dialogue karaoke style segment).
  { unfold ass_dialogue, without_words.
    destruct karaoke; [|reflexivity].
    destruct (Segment.words segment) as [[|w ws]|] eqn:W; cbn; rewrite ?W; reflexivity. }
  rewrite E. destruct (ass_dialogue karaoke style segment); [apply IH|reflexivity].
Qed.

(** *** The karaoke tags are not negative *)

Lemma centiseconds_nonneg (a b : float) :
  time_ok a -> time_ok b -> fle b a \/ flt zero (fsub a b) = true ->
  exists d k, mul_int (fsub a b) 100 = Ok d /\ int d = Ok k /\ 0 <= k.
Proof.
  destruct a as [a| |], b as [b| |]; cbn [time_ok]; try tauto.
  intros [Ba Ha] [Bb Hb] Hord. pose proof U_pos as HU.
  assert (B1 : b64 (2 * (2 ^ 1000 * U))).
  { replace (2 * (2 ^ 1000 * U)) with (1 * 2 ^ 2075) by zcompute.
    apply b64_intro; [lia|zcompute|zcompute]. }
  assert (M1 : 2 * (2 ^ 1000 * U) * 100 <= MAXF) by zcompute.
  assert (T0 : 0 <= 2 ^ 1000 * U) by zcompute.
  remember (2 ^ 1000 * U) as T eqn:ET. clear ET.
  assert (Ef : fsub (Fin a) (Fin b) = Fin (rnd_val (a - b) 1)).
  { rewrite fsub_fin, rnd_div_fin by lia. reflexivity. }
  rewrite Ef in *.
  pose proof (rnd_val_le (a - b) 1 _ ltac:(lia) B1 ltac:(lia)) as L.
  pose proof (rnd_val_ge (a - b) 1 _ ltac:(lia) (b64_opp _ B1) ltac:(lia)) as G.
  assert (P : 0 <= rnd_val (a - b) 1).
  { destruct Hord as [Hle|Hlt].
    - change (b <= a) in Hle. apply rnd_val_nonneg; lia.
    - change ((0 <? rnd_val (a - b) 1) = true) in Hlt. apply Z.ltb_lt in Hlt. lia. }
  set (dl := rnd_val (a - b) 1) in *.
  unfold mul_int. rewrite float_of_int_exact by (vm_compute; discriminate). cbn [bind].
  unfold fmul. rewrite rnd_div_fin; [|lia|nia]. cbn [int].
  eexists _, _. split; [reflexivity|]. split; [reflexivity|].
  apply Z.quot_pos; [|lia]. apply rnd_val_nonneg; [lia|nia].
Qed.

(** For a word that does not end before it starts, the fragment that
    [create_ass] builds holds no negative karaoke tag: the tag of the word's
    duration counts zero or more centiseconds, and the tag of the gap, which
    is written only for a positive gap, does so too (it is 0 for a gap
    below one centisecond). *)
Theorem karaoke_fragment_nonneg (last_end : float) (word : Word.t)
  (Hlast : time_ok last_end) (Hword : word_times_ok word)
  (Hord : fle (Word.start word) (Word.end_ word)) :
  exists (gap_tag : str) (k : Z),
    karaoke_fragment last_end word
    = Ok (gap_tag ++ lit "{\k" ++ str_of_int k ++ lit "}" ++ Word.word word ++ lit " ")
    /\ 0 <= k
    /\ (gap_tag = []
        \/ exists j, 0 <= j /\ gap_tag = lit "{\k" ++ str_of_int j ++ lit "} ").
Proof.
  destruct Hword as [Hs He]. unfold karaoke_fragment.
  destruct (centiseconds_nonneg _ _ He Hs (or_introl Hord)) as (d & k & Ed & Ek & Hk).
  rewrite Ed. cbn [bind]. rewrite Ek. cbn [bind].
  destruct (flt zero (fsub (Word.start word) last_end)) eqn:Eg.
  - destruct (centiseconds_nonneg _ _ Hs Hlast (or_intror Eg)) as (d' & j & Ed' & Ej & Hj).
    rewrite Ed'. cbn [bind]. rewrite Ej. cbn [bind].
    exists (lit "{\k" ++ str_of_int j ++ lit "} "), k.
    split; [reflexivity|]. split; [exact Hk|]. right. exists j. split; [exact Hj|reflexivity].
  - cbn [bind]. exists [], k. split; [reflexivity|]. split; [exact Hk|]. left. reflexivity.
Qed.

Lemma karaoke_fragment_nonneg_witness :
  exists (gap_tag : str) (k : Z),
    karaoke_fragment (dec_lit 5 1) (Word.mk (dec_lit 6 1) (of_Z 1) (lit "there"))
    = Ok (gap_tag ++ lit "{\k" ++ str_of_int k ++ lit "}"
          ++ Word.word (Word.mk (dec_lit 6 1) (of_Z 1) (lit "there")) ++ lit " ")
    /\ 0 <= k
    /\ (gap_tag = []
        \/ exists j, 0 <= j /\ gap_tag = lit "{\k" ++ str_of_int j ++ lit "} ").
Proof.
  apply (karaoke_fragment_nonneg (dec_lit 5 1) (Word.mk (dec_lit 6 1) (of_Z 1) (lit "there"))).
  - vm_compute. repeat split; discriminate.
  - split; vm_compute; repeat split; discriminate.
  - vm_compute. discriminate.
Defined.

Lemma auto_select_model_in_range (get_memory_info : res Z) (m : Z) :
  Z.abs m < FLOAT_INT_BOUND ->
  auto_select_model get_memory_info (Some m)
  = Ok (default (lit "tiny") (first_below_headroom model_sizes m)).
Proof.
  intros Hm. unfold auto_select_model. rewrite int_mul_headroom by assumption.
  cbn [bind]. replace (sorted_desc model_sizes) with model_sizes by (vm_compute; reflexivity).
  rewrite first_fitting_find; [reflexivity|]. intros e He. now apply in_map.
Qed.


Lemma float_of_int_overflow (m : Z) :
  FLOAT_INT_BOUND <= Z.abs m -> float_of_int m = Raise OverflowError.
Proof.
  intros Hm. pose proof U_pos as HU.
  assert (Top : rnd_val (FLOAT_INT_BOUND * U) 1 = HUGE) by (vm_compute; reflexivity).
  assert (HH : 0 < HUGE) by zcompute.
  unfold float_of_int, of_Z, rnd_div.
  destruct (Z.le_gt_cases 0 m) as [Hp|Hn].
  - assert (L : HUGE <= rnd_val (m * U) 1).
    { rewrite <- Top. apply rnd_val_mono; [lia|nia]. }
    destruct (Z.leb_spec HUGE (Z.abs (rnd_val (m * U) 1))); [reflexivity|lia].
  - assert (L : rnd_val (m * U) 1 <= - HUGE).
    { rewrite <- Top, <- rnd_val_opp by lia. apply rnd_val_mono; [lia|nia]. }
    destruct (Z.leb_spec HUGE (Z.abs (rnd_val (m * U) 1))); [reflexivity|lia].
Qed.



(** An int that [float()] cannot convert makes the product by 0.7 raise
    [OverflowError]: the selector has no answer for it. *)
Theorem auto_select_model_overflow (get_memory_info : res Z) (m : Z)
  (Hm : FLOAT_INT_BOUND <= Z.abs m) :
  auto_select_model get_memory_info (Some m) = Raise OverflowError
  /\ auto_select_model (Ok m) None = Raise OverflowError.
Proof.
  unfold auto_select_model, int_mul. rewrite float_of_int_overflow by assumption.
  split; reflexivity.
Qed.

Lemma auto_select_model_overflow_witness :
  auto_select_model (Raise ExternalError) (Some (2 ^ 1024)) = Raise OverflowError
  /\ auto_select_model (Ok (2 ^ 1024)) None = Raise OverflowError.
Proof.
  apply (auto_select_model_overflow (Raise ExternalError) (2 ^ 1024)).
  apply Z.leb_le. vm_compute. reflexivity.
Defined.

(** More memory never selects a model with a smaller footprint. *)
Theorem auto_select_model_monotone (get_memory_info : res Z) (m m' : Z)
  (model model' : str)
  (Hm : Z.abs m < FLOAT_INT_BOUND) (Hm' : Z.abs m' < FLOAT_INT_BOUND)
  (Hle : m <= m')
  (Hsel : auto_select_model get_memory_info (Some m) = Ok model)
  (Hsel' : auto_select_model get_memory_info (Some m') = Ok model') :
  footprint model <= footprint model'.
Proof.
  rewrite auto_select_model_in_range in Hsel, Hsel' by assumption.
  injection Hsel as <-. injection Hsel' as <-.
  unfold first_below_headroom, model_sizes. cbn [List.find snd fst].
  repeat match goal with
         | |- context [ (?a <? 7 * m) ] => destruct (Z.ltb_spec a (7 * m))
         end;
  repeat match goal with
         | |- context [ (?a <? 7 * m') ] => destruct (Z.ltb_spec a (7 * m'))
         end;
  first [ lia | vm_compute; discriminate ].
Qed.

Lemma auto_select_model_monotone_witness :
  footprint (lit "small") <= footprint (lit "large").
Proof.
  apply (auto_select_model_monotone (Raise ExternalError) (3 * 1024 ^ 3) (10 * 1024 ^ 3)).
  - apply Z.ltb_lt. vm_compute. reflexivity.
  - apply Z.ltb_lt. vm_compute. reflexivity.
  - apply Z.leb_le. vm_compute. reflexivity.
  - vm_compute. reflexivity.
  - vm_compute. reflexivity.
Defined.

Lemma model_step_eq (env : Env) (force : bool) (m : str) (fs : filesystem) :
  (if negb force && is_model_cached env m fs then (fs, Ok tt)
   else ensure_model_cached env m fs)
  = ensure_model_cached env m fs.
Proof.
  unfold ensure_model_cached.
  destruct (is_model_cached env m fs); [|now rewrite andb_false_r].
  now destruct force.
Qed.

Lemma write_subtitles_force_download (env : Env) (a : Args) (b : bool)
  (segments_list : list Segment.t) (input_name sanitized_input_name : str)
  (formats : list str) :
  write_subtitles env (with_force_download b a) segments_list input_name
                  sanitized_input_name formats
  = write_subtitles env a segments_list input_name sanitized_input_name formats.
Proof.
  induction formats as [|fmt rest IH]; [reflexivity|].
  cbn [write_subtitles]. rewrite IH. reflexivity.
Qed.

Lemma ebind_ext {A B : Type} (m m' : eff A) (k k' : A -> eff B) (fs : filesystem) :
  m fs = m' fs -> (forall x fs1, k x fs1 = k' x fs1) -> ebind m k fs = ebind m' k' fs.
Proof.
  intros Hm Hk. unfold ebind. rewrite Hm. destruct (m' fs) as [fs1 [x|e]]; [apply Hk|reflexivity].
Qed.

(** [force_download] changes nothing: a cached model is never downloaded
    again, because [ensure_model_cached] looks at the cache itself. *)
Theorem process_media_force_download (env : Env) (a : Args) (b : bool) (fs : filesystem) :
  process_media env (with_force_download b a) fs = process_media env a fs.
Proof.
  unfold process_media.
  apply ebind_ext; [reflexivity|]. intros [] fs1.
  apply ebind_ext.
  { cbv beta. rewrite !model_step_eq. reflexivity. }
  intros [] fs2.
  apply ebind_ext; [reflexivity|]. intros [msg|[df ip]] fs3; [reflexivity|].
  apply ebind_ext; [reflexivity|]. intros audio_path fs4.
  change (device (with_force_download b a)) with (device a).
  change (compute_type (with_force_download b a)) with (compute_type a).
  destruct (detect_device_and_compute_type env (device a) (compute_type a)) as [dv ct].
  apply ebind_ext; [reflexivity|]. intros segs fs5.
  apply ebind_ext; [now rewrite write_subtitles_force_download|]. intros [] fs6.
  reflexivity.
Qed.

Lemma remove_if_exists_frame (q : str) (fs fs' : filesystem) (r : res unit) :
  (if path_exists q fs then os_remove q fs else (fs, Ok tt)) = (fs', r) ->
  fs' = fs \/ fs' = delete q fs.
Proof.
  unfold os_remove. destruct (path_exists q fs); [|intros [= <- _]; now left].
  destruct (fs !! q) as [[c|]|]; intros [= <- _]; auto.
Qed.

(** The clean-up only removes, also when it raises: it leaves every path
    other than the temporary audio file, the downloaded file and the media
    file as it was, and it touches the last two only when a file was
    downloaded and [keep_video] is false. *)
Theorem cleanup_frame (a : Args) (p : Paths) (fs fs' : filesystem) (r : res unit)
  (Hrun : cleanup a p fs = (fs', r)) :
  fs' ⊆ fs
  /\ forall q, q <> temp_audio p ->
       keep_video a = true \/ downloaded_file p = None
       \/ (downloaded_file p <> Some q /\ q <> media_path p) ->
       fs' !! q = fs !! q.
Proof.
  unfold cleanup, ebind in Hrun.
  destruct (if path_exists (temp_audio p) fs then os_remove (temp_audio p) fs else (fs, Ok tt))
    as [fs1 r1] eqn:H1.
  apply remove_if_exists_frame in H1.
  assert (S1 : fs1 ⊆ fs) by (destruct H1 as [->| ->]; [reflexivity|apply delete_subseteq]).
  assert (F1 : forall q, q <> temp_audio p -> fs1 !! q = fs !! q).
  { intros q Hq. destruct H1 as [->| ->]; [reflexivity|]. now apply lookup_delete_ne. }
  destruct r1 as [[]|e]; [|injection Hrun as <- _; split; [exact S1|intros q Hq _; now apply F1]].
  destruct (truthy (downloaded_file p) && negb (keep_video a)) eqn:Hc.
  - apply andb_true_iff in Hc. destruct Hc as [Ht Hk].
    destruct (downloaded_file p) as [d|] eqn:Ed; [|discriminate].
    cbn [default from_option] in Hrun. unfold id in Hrun.
    destruct (if path_exists d fs1 then os_remove d fs1 else (fs1, Ok tt))
      as [fs2 r2] eqn:H2.
    apply remove_if_exists_frame in H2.
    assert (S2 : fs2 ⊆ fs1) by (destruct H2 as [->| ->]; [reflexivity|apply delete_subseteq]).
    assert (F2 : forall q, q <> d -> fs2 !! q = fs1 !! q).
    { intros q Hq. destruct H2 as [->| ->]; [reflexivity|]. now apply lookup_delete_ne. }
    assert (X : fs' ⊆ fs2 /\ forall q, q <> media_path p -> fs' !! q = fs2 !! q).
    { destruct r2 as [[]|e]; [|injection Hrun as <- _; split; [reflexivity|reflexivity]].
      destruct (negb (str_eqb d (media_path p)) && path_exists (media_path p) fs2) eqn:E.
      - unfold os_remove in Hrun.
        destruct (fs2 !! media_path p) as [[c|]|]; injection Hrun as <- _;
          first [ split; [apply delete_subseteq|intros q Hq; now apply lookup_delete_ne]
                | split; reflexivity ].
      - injection Hrun as <- _. split; reflexivity. }
    destruct X as [S3 F3].
    split; [etransitivity; [exact S3|etransitivity; eassumption]|].
    intros q Hq [Hkeep|[Hnone|[Hd Hm]]].
    + rewrite Hkeep in Hk. discriminate.
    + discriminate.
    + rewrite F3, F2, F1; [reflexivity|assumption| |assumption]. intros ->. now apply Hd.
  - unfold eret in Hrun. injection Hrun as <- _.
    split; [exact S1|intros q Hq _; now apply F1].
Qed.

Lemma cleanup_frame_witness :
  let a := demo_args in
  let p := {| downloaded_file := None; media_path := lit "in.mp3";
              temp_audio := lit "out/in_temp.wav" |} in
  let fs : filesystem := {[ lit "out/in_temp.wav" := File (lit "x"); lit "in.mp3" := File (lit "y") ]} in
  fst (cleanup a p fs) ⊆ fs
  /\ forall q, q <> temp_audio p ->
       keep_video a = true \/ downloaded_file p = None
       \/ (downloaded_file p <> Some q /\ q <> media_path p) ->
       fst (cleanup a p fs) !! q = fs !! q.
Proof.
  intros a p fs.
  apply (cleanup_frame a p fs (fst (cleanup a p fs)) (snd (cleanup a p fs))).
  now destruct (cleanup a p fs).
Defined.

Lemma write_file_frame (path : str) (written : file * res unit)
  (fs fs' : filesystem) (r : res unit) (q : str) :
  write_file path written fs = (fs', r) -> q <> path -> fs' !! q = fs !! q.
Proof.
  unfold write_file. destruct (fs !! path) as [[c|]|]; intros [= <- _] Hq;
    first [ reflexivity | now apply lookup_insert_ne ].
Qed.

(** The loop over the formats writes to the [.srt] path, to the [.ass] path
    and nowhere else, also when it raises. *)
Theorem write_subtitles_frame (env : Env) (a : Args) (segments_list : list Segment.t)
  (input_name sanitized_input_name : str) (formats : list str)
  (fs fs' : filesystem) (r : res unit) (q : str)
  (Hrun : write_subtitles env a segments_list input_name sanitized_input_name formats fs
          = (fs', r))
  (Hsrt : q <> srt_path_of env a sanitized_input_name)
  (Hass : q <> ass_path_of env a sanitized_input_name) :
  fs' !! q = fs !! q.
Proof.
  revert fs Hrun. induction formats as [|fmt rest IH]; intros fs Hrun.
  - unfold write_subtitles, eret in Hrun. now injection Hrun as <- _.
  - cbn [write_subtitles] in Hrun. unfold ebind in Hrun.
    match type of Hrun with
    | match ?step fs with _ => _ end = _ => destruct (step fs) as [fs1 r1] eqn:H1
    end.
    assert (F1 : fs1 !! q = fs !! q).
    { destruct (str_eqb (str_lower env fmt) (lit "srt")).
      - eapply write_file_frame; [exact H1|exact Hsrt].
      - destruct (str_eqb (str_lower env fmt) (lit "ass")).
        + eapply write_file_frame; [exact H1|exact Hass].
        + unfold eret in H1. now injection H1 as <- _. }
    destruct r1 as [[]|e].
    + rewrite <- F1. now apply IH.
    + now injection Hrun as <- _.
Qed.

Lemma write_subtitles_frame_witness :
  fst (write_subtitles demo_env demo_args [] (lit "n") (lit "n") [lit "srt"; lit "vtt"] ∅)
    !! lit "other" = (∅ : filesystem) !! lit "other".
Proof.
  apply (write_subtitles_frame demo_env demo_args [] (lit "n") (lit "n")
           [lit "srt"; lit "vtt"] ∅ _
           (snd (write_subtitles demo_env demo_args [] (lit "n") (lit "n")
                   [lit "srt"; lit "vtt"] ∅))).
  - now destruct (write_subtitles demo_env demo_args [] (lit "n") (lit "n")
                    [lit "srt"; lit "vtt"] ∅).
  - vm_compute. discriminate.
  - vm_compute. discriminate.
Defined.

Lemma write_file_ok (path : str) (written : file * res unit) (fs fs' : filesystem) :
  write_file path written fs = (fs', Ok tt) ->
  fs' !! path = Some (File (fst written)).
Proof.
  unfold write_file. destruct (fs !! path) as [[c|]|]; intros [= <- _];
    first [ apply lookup_insert_eq | discriminate ].
Qed.

Lemma write_subtitles_keeps_srt (env : Env) (a : Args) (segments_list : list Segment.t)
  (input_name sanitized_input_name : str) (formats : list str) :
  srt_path_of env a sanitized_input_name <> ass_path_of env a sanitized_input_name ->
  forall fs fs',
    write_subtitles env a segments_list input_name sanitized_input_name formats fs
    = (fs', Ok tt) ->
    fs !! srt_path_of env a sanitized_input_name
    = Some (File (fst (create_srt segments_list))) ->
    fs' !! srt_path_of env a sanitized_input_name
    = Some (File (fst (create_srt segments_list))).
Proof.
  intros Hne. induction formats as [|fmt rest IH]; intros fs fs' Hrun Hfs.
  - unfold write_subtitles, eret in Hrun. now injection Hrun as <-.
  - cbn [write_subtitles] in Hrun. apply ebind_ok in Hrun.
    destruct Hrun as (fs1 & [] & H1 & Hrest).
    apply (IH fs1 fs' Hrest).
    destruct (str_eqb (str_lower env fmt) (lit "srt")).
    + apply write_file_ok in H1. exact H1.
    + destruct (str_eqb (str_lower env fmt) (lit "ass")).
      * rewrite <- Hfs. eapply write_file_frame; [exact H1|exact Hne].
      * unfold eret in H1. now injection H1 as <-.
Qed.

(** When the loop over the formats ends normally and one of the formats is
    SRT (in any letter case), the [.srt] path holds the file of
    [create_srt] for the segments, provided the [.ass] path is another
    path. *)
Theorem write_subtitles_srt (env : Env) (a : Args) (segments_list : list Segment.t)
  (input_name sanitized_input_name : str) (formats : list str)
  (fs fs' : filesystem)
  (Hne : srt_path_of env a sanitized_input_name <> ass_path_of env a sanitized_input_name)
  (Hfmt : existsb (is_srt env) formats = true)
  (Hrun : write_subtitles env a segments_list input_name sanitized_input_name formats fs
          = (fs', Ok tt)) :
  fs' !! srt_path_of env a sanitized_input_name
  = Some (File (fst (create_srt segments_list))).
Proof.
  revert fs Hrun. induction formats as [|fmt rest IH]; intros fs Hrun; [discriminate|].
  cbn [write_subtitles] in Hrun. apply ebind_ok in Hrun.
  destruct Hrun as (fs1 & [] & H1 & Hrest).
  cbn [existsb] in Hfmt. unfold is_srt at 1 in Hfmt.
  destruct (str_eqb (str_lower env fmt) (lit "srt")).
  - apply write_file_ok in H1.
    eapply write_subtitles_keeps_srt; [exact Hne|exact Hrest|exact H1].
  - cbn [orb] in Hfmt. exact (IH Hfmt fs1 Hrest).
Qed.

Lemma write_subtitles_srt_witness :
  fst (write_subtitles demo_env demo_args [] (lit "n") (lit "n") [lit "SRT"; lit "ass"] ∅)
    !! srt_path_of demo_env demo_args (lit "n")
  = Some (File (fst (create_srt []))).
Proof.
  apply (write_subtitles_srt demo_env demo_args [] (lit "n") (lit "n")
           [lit "SRT"; lit "ass"] ∅).
  - vm_compute. discriminate.
  - vm_compute. reflexivity.
  - vm_compute. reflexivity.
Defined.

(** A run that reports a failed download has a YouTube URL for input and
    ends in the file system the download left: nothing was transcoded,
    transcribed, written or cleaned up after it. *)
Theorem process_media_download_failed (env : Env) (a : Args) (fs fs' : filesystem)
  (message : str)
  (Hrun : process_media env a fs = (fs', Ok (DownloadFailed message))) :
  is_youtube_url env (input_path a) = true
  /\ exists fs0,
       download_youtube_video env (input_path a) (output_dir a) (resolution a) fs0
       = (fs', (false, message)).
Proof.
  unfold process_media in Hrun.
  apply ebind_ok in Hrun. destruct Hrun as (fs1 & [] & _ & H).
  apply ebind_ok in H. destruct H as (fs2 & [] & _ & H).
  apply ebind_ok in H. destruct H as (fs3 & r & Hr & H).
  destruct r as [msg|[df ip]].
  - unfold eret in H. injection H as <- <-.
    unfold resolve_input in Hr.
    destruct (is_youtube_url env (input_path a)); [|discriminate].
    split; [reflexivity|]. exists fs2.
    destruct (download_youtube_video env (input_path a) (output_dir a) (resolution a) fs2)
      as [fs1' [[|] result]].
    + destruct (negb (str_eqb result _)).
      * apply ebind_ok in Hr. destruct Hr as (? & ? & _ & Hr). discriminate.
      * discriminate.
    + now injection Hr as <- <-.
  - apply ebind_ok in H. destruct H as (fs4 & audio_path & _ & H).
    destruct (detect_device_and_compute_type env (device a) (compute_type a)) as [dv ct].
    apply ebind_ok in H. destruct H as (fs5 & segs & _ & H).
    apply ebind_ok in H. destruct H as (fs6 & [] & _ & H).
    apply ebind_ok in H. destruct H as (fs7 & [] & _ & H).
    discriminate.
Qed.

Lemma process_media_download_failed_witness :
  is_youtube_url failing_env (input_path demo_args) = true
  /\ exists fs0,
       download_youtube_video failing_env (input_path demo_args) (output_dir demo_args)
                              (resolution demo_args) fs0
       = (fst (process_media failing_env demo_args ∅), (false, lit "yt-dlp error: ")).
Proof.
  apply (process_media_download_failed failing_env demo_args ∅).
  vm_compute. reflexivity.
Defined.

(** A download that succeeds returns the path the download tool reported,
    which is not empty and names something that exists; the file system is
    the one the tool left. *)
Theorem download_youtube_video_success (env : Env) (url output_dir resolution result : str)
  (fs fs' : filesystem)
  (Hrun : download_youtube_video env url output_dir resolution fs = (fs', (true, result))) :
  result <> [] /\ is_Some (fs' !! result)
  /\ yt_dlp env url output_dir resolution fs = (fs', YtOutput (Some result)).
Proof.
  unfold download_youtube_video in Hrun.
  destruct (yt_dlp env url output_dir resolution fs) as [fs1 [msg|[[|c p]|]]]; try discriminate.
  destruct (path_exists (c :: p) fs1) eqn:E; [|discriminate].
  apply bool_decide_eq_true in E. injection Hrun as <- <-.
  split; [discriminate|]. split; [assumption|reflexivity].
Qed.

Lemma download_youtube_video_success_witness :
  lit "out/my video.mp4" <> []
  /\ is_Some (fst (download_youtube_video demo_env (lit "u") (lit "out") (lit "720p") ∅)
              !! lit "out/my video.mp4")
  /\ yt_dlp demo_env (lit "u") (lit "out") (lit "720p") ∅
     = (fst (download_youtube_video demo_env (lit "u") (lit "out") (lit "720p") ∅),
        YtOutput (Some (lit "out/my video.mp4"))).
Proof.
  apply (download_youtube_video_success demo_env (lit "u") (lit "out") (lit "720p")).
  vm_compute. reflexivity.
Defined.

(** The device and the compute type do not depend on the platform (Apple
    silicon or not); a requested value other than "auto" is returned as it
    is; and a compute type left to "auto" is "float16" on the device "cuda"
    and "int8" on every other device. *)
Theorem detect_device_and_compute_type_cases (env : Env)
  (requested_device requested_compute : str) :
  let '(device, compute_type) :=
    detect_device_and_compute_type env requested_device requested_compute in
  (forall env', cuda_available env' = cuda_available env ->
     detect_device_and_compute_type env' requested_device requested_compute
     = (device, compute_type))
  /\ device = (if str_eqb requested_device (lit "auto")
               then (if cuda_available env then lit "cuda" else lit "cpu")
               else requested_device)
  /\ compute_type = (if str_eqb requested_compute (lit "auto")
                     then (if str_eqb device (lit "cuda") then lit "float16" else lit "int8")
                     else requested_compute).
Proof.
  unfold detect_device_and_compute_type.
  split; [|split].
  - intros env' ->. destruct (is_mac env' && is_arm env'), (is_mac env && is_arm env); reflexivity.
  - now destruct (str_eqb requested_device (lit "auto")).
  - destruct (str_eqb requested_compute (lit "auto")); [|reflexivity]. cbn [negb].
    now destruct (is_mac env && is_arm env).
Qed.

Lemma int_truediv_fraction (a b k : Z) :
  0 < b -> 0 <= a <= k * b -> 0 <= k <= 2 ^ 53 ->
  int_truediv a b = Ok (Fin (rnd_val (a * U) b))
  /\ 0 <= rnd_val (a * U) b <= k * U.
Proof.
  intros Hb Ha Hk. pose proof U_pos as HU.
  assert (B : 0 <= rnd_val (a * U) b <= k * U).
  { split.
    - apply rnd_val_nonneg; nia.
    - apply rnd_val_le; [lia|apply b64_int; lia|nia]. }
  split; [|exact B].
  unfold int_truediv. destruct (Z.eqb_spec b 0); [lia|].
  destruct (Z.ltb_spec b 0); [lia|].
  rewrite rnd_div_fin'; [reflexivity|].
  pose proof (b64_le_MAXF _ (b64_int k ltac:(lia))) as M.
  rewrite Z.abs_eq in M by nia. lia.
Qed.

Lemma progress_floor (current total : Z) :
  0 < total <= 2 ^ 46 -> 0 <= current <= total ->
  rnd_val (current * 50 * U) total / U = current * 50 / total.
Proof.
  intros Ht Hc. pose proof U_pos as HU.
  set (k := current * 50 / total).
  assert (Hk : 0 <= k <= 50).
  { unfold k. split; [apply Z.div_pos; lia|]. apply Z.div_le_upper_bound; lia. }
  assert (Hlo : k * total <= current * 50).
  { unfold k. rewrite Z.mul_comm. apply Z.mul_div_le. lia. }
  assert (Hhi : current * 50 < (k + 1) * total).
  { unfold k. pose proof (Z.mul_succ_div_gt (current * 50) total ltac:(lia)). lia. }
  clearbody k.
  assert (L : k * U <= rnd_val (current * 50 * U) total).
  { apply rnd_val_ge; [lia|apply b64_int; lia|nia]. }
  assert (EU : U = 2 ^ 46 * 2 ^ 1028) by zcompute.
  assert (P28 : 0 < 2 ^ 1028) by (apply pow2_pos; lia).
  assert (P46 : 2 ^ 46 = 70368744177664) by reflexivity.
  assert (H : rnd_val (current * 50 * U) total <= ((k + 1) * 2 ^ 46 - 1) * 2 ^ 1028).
  { apply rnd_val_le; [lia| |].
    - apply b64_intro; [lia| |].
      + rewrite P46. assert (2 ^ 53 = 9007199254740992) by reflexivity. lia.
      + rewrite Z.abs_eq by nia.
        assert (HH : HUGE = 2 ^ 1024 * (2 ^ 46 * 2 ^ 1028)) by zcompute.
        assert (1 <= 2 ^ 1024) by zcompute.
        rewrite HH. remember (2 ^ 1028) as e28. remember (2 ^ 1024) as e24. nia.
    - rewrite EU. remember (2 ^ 1028) as e28. rewrite P46 in *. nia. }
  remember (rnd_val (current * 50 * U) total) as r.
  symmetry. apply Z.div_unique with (r := r - k * U).
  - left. rewrite EU in *. remember (2 ^ 1028) as e28. rewrite P46 in *. nia.
  - lia.
Qed.

(** With the display on, a positive total and a count between 0 and the
    total, [update_progress] writes one line: the step counter, the step
    name, a bar of exactly fifty cells, the count and a percentage.  The
    filled cells are at most fifty, and for totals up to [2^46] they are the
    whole part of [50 * current / total]. *)
Theorem update_progress_bar (self : ProgressTracker.t) (current total : Z)
  (Hv : ProgressTracker.verbose self = true)
  (Ht : 0 < total) (Hc : 0 <= current <= total) :
  exists (progress : Z) (percent : str),
    update_progress self current total
    = Ok ([13%N] ++ lit "[" ++ str_of_int (ProgressTracker.current_step self) ++ lit "/"
          ++ str_of_int (ProgressTracker.total_steps self) ++ lit "] "
          ++ ProgressTracker.step_name self ++ lit ": "
          ++ lit "[" ++ progress_bar progress ++ lit "] "
          ++ str_of_int current ++ lit "/" ++ str_of_int total ++ lit " "
          ++ lit "(" ++ percent ++ lit "%)")
    /\ 0 <= progress <= 50
    /\ List.length (progress_bar progress) = 50%nat
    /\ (total <= 2 ^ 46 -> progress = current * 50 / total).
Proof.
  pose proof U_pos as HU.
  destruct (int_truediv_fraction (current * 50) total 50) as [E1 B1];
    [lia|lia|split; [lia|zcompute]|].
  destruct (int_truediv_fraction (current * 100) total 100) as [E2 B2];
    [lia|lia|split; [lia|zcompute]|].
  set (r := rnd_val (current * 50 * U) total) in *.
  assert (Hp : 0 <= r / U <= 50).
  { split; [apply Z.div_pos; lia|]. apply Z.div_le_upper_bound; lia. }
  unfold update_progress. rewrite Hv, E1. cbn [bind int].
  rewrite Z.quot_div_nonneg by lia. cbn [bind].
  unfold fmt_quot_1f. rewrite E2. cbn [bind].
  eexists (r / U), _. split; [reflexivity|]. split; [exact Hp|]. split.
  - unfold progress_bar. rewrite List.length_app, !repeat_length. lia.
  - intros Hs. apply progress_floor; lia.
Qed.

Lemma update_progress_bar_witness :
  exists (progress : Z) (percent : str),
    update_progress (ProgressTracker.mk 4 2 true (lit "step")) 1 3
    = Ok ([13%N] ++ lit "[" ++ str_of_int 2 ++ lit "/" ++ str_of_int 4 ++ lit "] "
          ++ lit "step" ++ lit ": "
          ++ lit "[" ++ progress_bar progress ++ lit "] "
          ++ str_of_int 1 ++ lit "/" ++ str_of_int 3 ++ lit " "
          ++ lit "(" ++ percent ++ lit "%)")
    /\ 0 <= progress <= 50
    /\ List.length (progress_bar progress) = 50%nat
    /\ (3 <= 2 ^ 46 -> progress = 1 * 50 / 3).
Proof.
  apply (update_progress_bar (ProgressTracker.mk 4 2 true (lit "step")) 1 3); [reflexivity|lia|lia].
Defined.

(** A total of zero makes [update_progress] raise [ZeroDivisionError] when
    the display is on; with the display off nothing is computed and nothing
    is written, whatever the count and the total. *)
Theorem update_progress_edge (self : ProgressTracker.t) (current total : Z) :
  update_progress self current 0
  = (if ProgressTracker.verbose self then Raise ZeroDivisionError else Ok [])
  /\ (ProgressTracker.verbose self = false -> update_progress self current total = Ok []).
Proof.
  unfold update_progress. split.
  - destruct (ProgressTracker.verbose self); reflexivity.
  - intros ->. reflexivity.
Qed.

Lemma strip_prefix_app (l rest : str) : Re.strip_prefix l (l ++ rest) = Some rest.
Proof.
  induction l as [|a l IH]; cbn [Re.strip_prefix app]; [now destruct rest|].
  now rewrite N.eqb_refl.
Qed.

Lemma strip_prefix_spec (l s s' : str) : Re.strip_prefix l s = Some s' -> s = l ++ s'.
Proof.
  revert s. induction l as [|a l IH]; intros s; cbn [Re.strip_prefix app].
  - destruct s; now intros [= <-].
  - destruct s as [|c s]; [discriminate|].
    destruct (N.eqb_spec a c) as [->|]; [|discriminate].
    intros H. now rewrite (IH _ H).
Qed.

Lemma plus_class_spec (p : N -> bool) (s s' : str) :
  In s' (Re.plus_class p s) -> exists l, s = l ++ s' /\ l <> [] /\ forallb p l = true.
Proof.
  revert s'. induction s as [|c s IH]; intros s'; cbn [Re.plus_class]; [contradiction|].
  destruct (p c) eqn:Hc; [|contradiction].
  rewrite in_app_iff. intros [H|[<-|[]]].
  - destruct (IH _ H) as (l & -> & _ & Hl). exists (c :: l).
    split; [reflexivity|]. split; [discriminate|]. cbn. now rewrite Hc.
  - exists [c]. split; [reflexivity|]. split; [discriminate|]. cbn. now rewrite Hc.
Qed.

Lemma plus_class_intro (p : N -> bool) (l rest : str) :
  l <> [] -> forallb p l = true -> In rest (Re.plus_class p (l ++ rest)).
Proof.
  induction l as [|c l IH]; [contradiction|]. intros _ H.
  cbn [forallb] in H. apply andb_true_iff in H. destruct H as [Hc Hl].
  cbn [app Re.plus_class]. rewrite Hc. apply in_or_app.
  destruct l as [|c' l]; [right; now left|].
  left. apply IH; [discriminate|assumption].
Qed.

Lemma rep_class_spec (n : nat) (p : N -> bool) (s s' : str) :
  Re.rep_class n p s = Some s' ->
  exists l, s = l ++ s' /\ List.length l = n /\ forallb p l = true.
Proof.
  revert s. induction n as [|n IH]; intros s; cbn [Re.rep_class].
  - destruct s; intros [= <-]; now exists [].
  - destruct s as [|c s]; [discriminate|]. destruct (p c) eqn:Hc; [|discriminate].
    intros H. destruct (IH _ H) as (l & -> & Hn & Hl). exists (c :: l).
    split; [reflexivity|]. split; [cbn; now rewrite Hn|]. cbn. now rewrite Hc.
Qed.

Lemma rep_class_intro (p : N -> bool) (l rest : str) :
  forallb p l = true -> Re.rep_class (List.length l) p (l ++ rest) = Some rest.
Proof.
  induction l as [|c l IH]; cbn [forallb List.length app Re.rep_class].
  - now destruct rest.
  - intros H. apply andb_true_iff in H. destruct H as [-> Hl]. now apply IH.
Qed.

(** Every way to match leaves a suffix of the string. *)
Lemma run_suffix (r : Re.t) (whole : nat) :
  forall s caps s' caps',
    In (s', caps') (Re.run r whole s caps) -> exists l, s = l ++ s'.
Proof.
  induction r as [l|p|r1 IH1 r2 IH2|r1 IH1 r2 IH2|r IH|p|n p|i r IH| |];
    intros s caps s' caps'; cbn [Re.run].
  - destruct (Re.strip_prefix l s) as [s0|] eqn:E; [|contradiction].
    intros [[= <- <-]|[]]. exists l. now apply strip_prefix_spec.
  - destruct s as [|c s]; [contradiction|]. destruct (p c); [|contradiction].
    intros [[= <- <-]|[]]. now exists [c].
  - rewrite in_flat_map. intros ([s1 c1] & H1 & H2). cbn [fst snd] in H2.
    destruct (IH1 _ _ _ _ H1) as (l1 & ->). destruct (IH2 _ _ _ _ H2) as (l2 & ->).
    exists (l1 ++ l2). now rewrite <- List.app_assoc.
  - rewrite in_app_iff. intros [H|H]; eauto.
  - rewrite in_app_iff. intros [H|[[= <- <-]|[]]]; [eauto|now exists []].
  - rewrite in_map_iff. intros (s0 & [= <- <-] & H).
    destruct (plus_class_spec _ _ _ H) as (l & -> & _). now exists l.
  - destruct (Re.rep_class n p s) as [s0|] eqn:E; [|contradiction].
    intros [[= <- <-]|[]]. destruct (rep_class_spec _ _ _ _ E) as (l & -> & _). now exists l.
  - rewrite in_map_iff. intros ([s0 c0] & [= <- <-] & H). eauto.
  - destruct (Nat.eqb (List.length s) whole); [|contradiction].
    intros [[= <- <-]|[]]. now exists [].
  - destruct (str_eqb s [] || str_eqb s nl); [|contradiction].
    intros [[= <- <-]|[]]. now exists [].
Qed.

(** A pattern without group leaves the groups as they are. *)
Lemma run_caps (r : Re.t) (whole : nat) :
  no_groups r = true ->
  forall s caps s' caps', In (s', caps') (Re.run r whole s caps) -> caps' = caps.
Proof.
  induction r as [l|p|r1 IH1 r2 IH2|r1 IH1 r2 IH2|r IH|p|n p|i r IH| |];
    cbn [no_groups]; intros Hg s caps s' caps'; cbn [Re.run];
    try (apply andb_true_iff in Hg; destruct Hg as [Hg1 Hg2]).
  - destruct (Re.strip_prefix l s); [|contradiction]. now intros [[= _ <-]|[]].
  - destruct s as [|c s]; [contradiction|]. destruct (p c); [|contradiction].
    now intros [[= _ <-]|[]].
  - rewrite in_flat_map. intros ([s1 c1] & H1 & H2). cbn [fst snd] in H2.
    rewrite (IH2 Hg2 _ _ _ _ H2). exact (IH1 Hg1 _ _ _ _ H1).
  - rewrite in_app_iff. intros [H|H]; eauto.
  - rewrite in_app_iff. intros [H|[[= _ <-]|[]]]; eauto.
  - rewrite in_map_iff. now intros (s0 & [= _ <-] & _).
  - destruct (Re.rep_class n p s); [|contradiction]. now intros [[= _ <-]|[]].
  - discriminate.
  - destruct (Nat.eqb (List.length s) whole); [|contradiction]. now intros [[= _ <-]|[]].
  - destruct (str_eqb s [] || str_eqb s nl); [|contradiction]. now intros [[= _ <-]|[]].
Qed.

(** A pattern without anchor that matches at the start of a string matches
    the same way at the start of every string that extends it. *)
Lemma run_ext (r : Re.t) (whole whole' : nat) (v : str) :
  anchor_free r = true ->
  forall s caps s' caps',
    In (s', caps') (Re.run r whole s caps) ->
    In (s' ++ v, caps') (Re.run r whole' (s ++ v) caps).
Proof.
  induction r as [l|p|r1 IH1 r2 IH2|r1 IH1 r2 IH2|r IH|p|n p|i r IH| |];
    cbn [anchor_free]; intros Ha s caps s' caps'; cbn [Re.run];
    try (apply andb_true_iff in Ha; destruct Ha as [Ha1 Ha2]);
    try discriminate.
  - destruct (Re.strip_prefix l s) as [s0|] eqn:E; [|contradiction].
    intros [[= <- <-]|[]]. apply strip_prefix_spec in E. subst s.
    rewrite <- List.app_assoc, strip_prefix_app. now left.
  - destruct s as [|c s]; [contradiction|]. destruct (p c) eqn:Hc; [|contradiction].
    intros [[= <- <-]|[]]. cbn [app]. rewrite Hc. now left.
  - rewrite !in_flat_map. intros ([s1 c1] & H1 & H2). cbn [fst snd] in H2.
    exists (s1 ++ v, c1). split; [now apply IH1|]. cbn [fst snd]. now apply IH2.
  - rewrite !in_app_iff. intros [H|H]; [left|right]; auto.
  - rewrite !in_app_iff. intros [H|[[= <- <-]|[]]]; [left; auto|right; now left].
  - rewrite !in_map_iff. intros (s0 & [= <- <-] & H).
    exists (s0 ++ v). split; [reflexivity|].
    destruct (plus_class_spec _ _ _ H) as (l & -> & Hl & Hp).
    rewrite <- List.app_assoc. now apply plus_class_intro.
  - destruct (Re.rep_class n p s) as [s0|] eqn:E; [|contradiction].
    intros [[= <- <-]|[]]. destruct (rep_class_spec _ _ _ _ E) as (l & -> & <- & Hp).
    rewrite <- List.app_assoc, rep_class_intro by assumption. now left.
  - rewrite !in_map_iff. intros ([s0 c0] & [= <- <-] & H).
    exists (s0 ++ v, c0). split; [|now apply IH].
    cbn [fst snd]. f_equal. f_equal. f_equal.
    destruct (run_suffix _ _ _ _ _ _ H) as (l & ->).
    rewrite <- List.app_assoc, !List.length_app.
    replace (List.length l + (List.length s0 + List.length v) - (List.length s0 + List.length v))%nat
      with (List.length l) by lia.
    replace (List.length l + List.length s0 - List.length s0)%nat with (List.length l) by lia.
    rewrite !firstn_app, !firstn_all, !Nat.sub_diag. cbn [firstn]. reflexivity.
Qed.

Lemma is_youtube_url_iff (url : str) :
  youtube_downloader.is_youtube_url url = true
  <-> exists m, In m (Re.run youtube_downloader.youtube_regex (List.length url) url []).
Proof.
  unfold youtube_downloader.is_youtube_url, Re.match_.
  destruct (Re.run youtube_downloader.youtube_regex (List.length url) url []) as [|m t].
  - cbn. split; [discriminate|intros [m []]].
  - cbn. split; [intros _; exists m; now left|reflexivity].
Qed.

(** [is_youtube_url] looks at the start of the string only: a string that
    it accepts stays accepted whatever is put after it. *)
Theorem is_youtube_url_prefix (url more : str)
  (Hurl : youtube_downloader.is_youtube_url url = true) :
  youtube_downloader.is_youtube_url (url ++ more) = true.
Proof.
  apply is_youtube_url_iff in Hurl. destruct Hurl as ([s' caps'] & H).
  apply is_youtube_url_iff. exists (s' ++ more, caps').
  apply (run_ext youtube_downloader.youtube_regex (List.length url)); [reflexivity|exact H].
Qed.

Lemma is_youtube_url_prefix_witness :
  youtube_downloader.is_youtube_url (lit "youtu.be/abcdefghijk" ++ lit " and anything else") = true.
Proof.
  apply (is_youtube_url_prefix (lit "youtu.be/abcdefghijk") (lit " and anything else")).
  vm_compute. reflexivity.
Defined.

Lemma search_from_in (r : Re.t) (whole : nat) (s : str) (caps : Re.captures) :
  Re.search_from r whole s = Some caps ->
  exists s0 s', In (s', caps) (Re.run r whole s0 []).
Proof.
  induction s as [|c s IH]; cbn [Re.search_from].
  - destruct (Re.run r whole [] []) as [|[s' c'] t] eqn:E; cbn [hd_error]; [discriminate|].
    intros [= <-]. exists [], s'. rewrite E. now left.
  - destruct (Re.run r whole (c :: s) []) as [|[s' c'] t] eqn:E; cbn [hd_error]; [exact IH|].
    intros [= <-]. exists (c :: s), s'. rewrite E. now left.
Qed.

Lemma search_from_skip (r : Re.t) (whole : nat) (c : N) (s : str) :
  Re.run r whole (c :: s) [] = [] ->
  Re.search_from r whole (c :: s) = Re.search_from r whole s.
Proof. intros E. cbn [Re.search_from]. now rewrite E. Qed.

(** The group that [([\w\-]{11})] followed by a pattern without group
    records. *)
Lemma grp_rep_caps (p : N -> bool) (tail : Re.t) (whole : nat)
  (s s' : str) (caps caps' : Re.captures) :
  no_groups tail = true ->
  In (s', caps') (Re.run (Re.Seq (Re.Grp 1 (Re.Rep 11 p)) tail) whole s caps) ->
  exists video_id, caps' = (1%nat, video_id) :: caps
                   /\ List.length video_id = 11%nat /\ forallb p video_id = true.
Proof.
  intros Hg. cbn [Re.run]. rewrite in_flat_map. intros ([s1 c1] & H1 & H2).
  cbn [fst snd] in H2. apply (run_caps tail whole Hg) in H2. subst caps'.
  rewrite in_map_iff in H1. destruct H1 as ([s0 c0] & Heq & H1).
  cbn [fst snd] in Heq. injection Heq as Es Ec. subst s1 c1.
  destruct (Re.rep_class 11 p s) as [s2|] eqn:E; [|contradiction].
  destruct H1 as [Heq|[]]. injection Heq as Es Ec. subst s2 c0.
  destruct (rep_class_spec _ _ _ _ E) as (l & El & Hn & Hp). subst s.
  exists l. split; [|split; assumption].
  rewrite List.length_app.
  replace (List.length l + List.length s0 - List.length s0)%nat with (List.length l) by lia.
  rewrite firstn_app, firstn_all, Nat.sub_diag. cbn [firstn]. now rewrite List.app_nil_r.
Qed.

Lemma find_video_id_spec (unicode_alnum : N -> bool) (url video_id : str) :
  youtube_downloader.find_video_id (youtube_downloader.patterns unicode_alnum) url = Some video_id ->
  is_video_id unicode_alnum video_id.
Proof.
  assert (G : forall (head : Re.t) (tail : Re.t) caps,
    no_groups head = true -> no_groups tail = true ->
    Re.search (Re.Seq head (Re.Seq (Re.Grp 1 (Re.Rep 11 (youtube_downloader.id_char unicode_alnum))) tail)) url
    = Some caps ->
    Re.group 1 caps = Some video_id -> is_video_id unicode_alnum video_id).
  { intros head tail caps Hh Ht Hs Hgr. unfold Re.search in Hs.
    apply search_from_in in Hs. destruct Hs as (s0 & s' & H).
    cbn [Re.run] in H. rewrite in_flat_map in H. destruct H as ([s1 c1] & H1 & H2).
    apply (run_caps head _ Hh) in H1. subst c1. cbn [fst snd] in H2.
    change (flat_map (fun m => Re.run tail (List.length url) (fst m) (snd m))
              (Re.run (Re.Grp 1 (Re.Rep 11 (youtube_downloader.id_char unicode_alnum))) (List.length url) s1 []))
      with (Re.run (Re.Seq (Re.Grp 1 (Re.Rep 11 (youtube_downloader.id_char unicode_alnum))) tail)
              (List.length url) s1 []) in H2.
    destruct (grp_rep_caps _ _ _ _ _ _ _ Ht H2) as (l & -> & Hn & Hp).
    cbn in Hgr. injection Hgr as <-. split; assumption. }
  unfold youtube_downloader.patterns, youtube_downloader.id_to_end. cbn [youtube_downloader.find_video_id]. intros H.
  repeat match type of H with
         | context [Re.search ?r url] => destruct (Re.search r url) as [?caps|] eqn:?
         end;
    try discriminate H;
    match goal with
    | E : Re.search _ url = Some ?c |- _ => refine (G _ _ c _ _ E H); reflexivity
    end.
Qed.

Lemma run_id_to_end (p : N -> bool) (whole : nat) (video_id : str) (caps : Re.captures) :
  List.length video_id = 11%nat -> forallb p video_id = true ->
  Re.run (Re.Seq (Re.Grp 1 (Re.Rep 11 p)) (Re.Seq (Re.Opt (Re.Plus youtube_downloader.non_space)) Re.Eol))
         whole video_id caps
  = [([], (1%nat, video_id) :: caps)].
Proof.
  intros Hn Hp.
  assert (E : Re.rep_class 11 p video_id = Some []).
  { rewrite <- Hn. rewrite <- (List.app_nil_r video_id) at 2. now apply rep_class_intro. }
  cbn [Re.run]. rewrite E.
  cbn [map flat_map fst snd List.length Re.plus_class app].
  rewrite Nat.sub_0_r, firstn_all. reflexivity.
Qed.

Lemma run_after_v (tail : Re.t) (whole : nat) (s : str) :
  Re.run (Re.Seq (Re.Alt (Re.Str (lit "v=")) (Re.Str (lit "/"))) tail) whole
         (118 :: 61 :: s)%N []
  = Re.run tail whole s [].
Proof.
  cbn [Re.run].
  change (Re.strip_prefix (lit "v=") (118 :: 61 :: s)%N) with (Some s).
  change (Re.strip_prefix (lit "/") (118 :: 61 :: s)%N) with (@None str).
  cbn [app flat_map fst snd]. apply List.app_nil_r.
Qed.

(** The first pattern finds the id of a normalized URL. *)
Lemma find_video_id_normalized (unicode_alnum : N -> bool) (video_id : str) :
  is_video_id unicode_alnum video_id ->
  youtube_downloader.find_video_id (youtube_downloader.patterns unicode_alnum) (youtube_downloader.WATCH_URL ++ video_id) = Some video_id.
Proof.
  intros [Hn Hp].
  unfold youtube_downloader.patterns. cbn [youtube_downloader.find_video_id]. unfold Re.search.
  generalize (List.length (youtube_downloader.WATCH_URL ++ video_id)). intros whole.
  match goal with
  | |- context [Re.search_from ?r whole ?s] =>
      let s' := eval cbv in s in
      change (Re.search_from r whole s) with (Re.search_from r whole s')
  end.
  repeat (rewrite search_from_skip by (vm_compute; reflexivity)).
  cbn [Re.search_from]. unfold youtube_downloader.id_to_end.
  rewrite run_after_v, run_id_to_end by assumption.
  reflexivity.
Qed.

(** The URL that [normalize_youtube_url] builds from an id is one that
    [is_youtube_url] accepts. *)
Lemma id_char_not_separator (unicode_alnum : N -> bool) (c : N) :
  youtube_downloader.id_char unicode_alnum c = true -> youtube_downloader.not_separator c = true.
Proof.
  unfold youtube_downloader.id_char, youtube_downloader.not_separator, is_word_char. cbn [existsb].
  intros H.
  destruct (N.eqb_spec c 38) as [->|]; [vm_compute in H; discriminate|].
  destruct (N.eqb_spec c 61) as [->|]; [vm_compute in H; discriminate|].
  destruct (N.eqb_spec c 37) as [->|]; [vm_compute in H; discriminate|].
  destruct (N.eqb_spec c 63) as [->|]; [vm_compute in H; discriminate|].
  reflexivity.
Qed.

Lemma in_run_seq (r1 r2 : Re.t) (whole : nat) (s : str) (caps : Re.captures)
  (m1 m2 : str * Re.captures) :
  In m1 (Re.run r1 whole s caps) -> In m2 (Re.run r2 whole (fst m1) (snd m1)) ->
  In m2 (Re.run (Re.Seq r1 r2) whole s caps).
Proof. intros H1 H2. cbn [Re.run]. apply in_flat_map. eauto. Qed.

Lemma in_run_str (l rest : str) (whole : nat) (caps : Re.captures) :
  In (rest, caps) (Re.run (Re.Str l) whole (l ++ rest) caps).
Proof. cbn [Re.run]. rewrite strip_prefix_app. now left. Qed.

Lemma in_run_opt (r : Re.t) (whole : nat) (s : str) (caps : Re.captures)
  (m : str * Re.captures) :
  In m (Re.run r whole s caps) -> In m (Re.run (Re.Opt r) whole s caps).
Proof. intros H. cbn [Re.run]. apply in_or_app. now left. Qed.

Lemma in_run_alt_l (r1 r2 : Re.t) (whole : nat) (s : str) (caps : Re.captures)
  (m : str * Re.captures) :
  In m (Re.run r1 whole s caps) -> In m (Re.run (Re.Alt r1 r2) whole s caps).
Proof. intros H. cbn [Re.run]. apply in_or_app. now left. Qed.

Lemma in_run_grp (i : nat) (r : Re.t) (whole : nat) (s : str) (caps : Re.captures)
  (m : str * Re.captures) :
  In m (Re.run r whole s caps) ->
  In (fst m, (i, firstn (List.length s - List.length (fst m)) s) :: snd m)
     (Re.run (Re.Grp i r) whole s caps).
Proof. intros H. cbn [Re.run]. apply in_map_iff. eauto. Qed.

Lemma in_run_rep (p : N -> bool) (l rest : str) (whole : nat) (caps : Re.captures) :
  forallb p l = true ->
  In (rest, caps) (Re.run (Re.Rep (List.length l) p) whole (l ++ rest) caps).
Proof. intros H. cbn [Re.run]. rewrite rep_class_intro by assumption. now left. Qed.

Lemma in_run_rep_all (p : N -> bool) (l : str) (whole : nat) (caps : Re.captures) :
  forallb p l = true ->
  In ([], caps) (Re.run (Re.Rep (List.length l) p) whole l caps).
Proof.
  intros H. pose proof (in_run_rep p l [] whole caps H) as X.
  now rewrite List.app_nil_r in X.
Qed.

Lemma is_youtube_url_watch (unicode_alnum : N -> bool) (video_id : str) :
  is_video_id unicode_alnum video_id -> youtube_downloader.is_youtube_url (youtube_downloader.WATCH_URL ++ video_id) = true.
Proof.
  intros [Hn Hp]. apply is_youtube_url_iff.
  generalize (List.length (youtube_downloader.WATCH_URL ++ video_id)). intros whole.
  assert (Hs : forallb youtube_downloader.not_separator video_id = true).
  { apply forallb_forall. intros c Hc. rewrite forallb_forall in Hp.
    eapply id_char_not_separator, Hp, Hc. }
  change (youtube_downloader.WATCH_URL ++ video_id)
    with (lit "http" ++ lit "s" ++ lit "://" ++ lit "www." ++ lit "youtube" ++ lit "."
          ++ lit "com" ++ lit "/" ++ lit "watch?v=" ++ video_id).
  unfold youtube_downloader.youtube_regex. eexists.
  eapply in_run_seq.
  { apply in_run_opt. apply in_run_grp.
    eapply in_run_seq; [apply in_run_str|]. cbn [fst snd].
    eapply in_run_seq; [apply in_run_opt, in_run_str|]. cbn [fst snd].
    apply in_run_str. }
  cbn [fst snd]. eapply in_run_seq.
  { apply in_run_opt. apply in_run_grp. apply in_run_str. }
  cbn [fst snd]. eapply in_run_seq.
  { apply in_run_grp. apply in_run_alt_l. apply in_run_str. }
  cbn [fst snd]. eapply in_run_seq; [apply in_run_str|].
  cbn [fst snd]. eapply in_run_seq.
  { apply in_run_grp. apply in_run_alt_l. apply in_run_str. }
  cbn [fst snd]. eapply in_run_seq; [apply in_run_str|].
  cbn [fst snd]. eapply in_run_seq.
  { apply in_run_opt. apply in_run_grp. apply in_run_alt_l. apply in_run_str. }
  cbn [fst snd]. apply in_run_grp. rewrite <- Hn. now apply in_run_rep_all.
Qed.

Lemma normalize_youtube_url_shape_aux (unicode_alnum : N -> bool) (url : str) :
  youtube_downloader.normalize_youtube_url unicode_alnum url = url
  \/ exists video_id,
       is_video_id unicode_alnum video_id
       /\ youtube_downloader.normalize_youtube_url unicode_alnum url = youtube_downloader.WATCH_URL ++ video_id.
Proof.
  unfold youtube_downloader.normalize_youtube_url.
  destruct (youtube_downloader.find_video_id (youtube_downloader.patterns unicode_alnum) url) as [[|c video_id]|] eqn:E;
    [now left| |now left].
  right. exists (c :: video_id). split; [|reflexivity]. eapply find_video_id_spec, E.
Qed.

(** [normalize_youtube_url] either returns the URL as it is or the watch
    URL of a video id: eleven characters of the class [[\w\-]]. *)
Theorem normalize_youtube_url_shape (unicode_alnum : N -> bool) (url : str) :
  youtube_downloader.normalize_youtube_url unicode_alnum url = url
  \/ exists video_id,
       is_video_id unicode_alnum video_id
       /\ youtube_downloader.normalize_youtube_url unicode_alnum url = youtube_downloader.WATCH_URL ++ video_id.
Proof. apply normalize_youtube_url_shape_aux. Qed.

(** [normalize_youtube_url] is idempotent. *)
Theorem normalize_youtube_url_idempotent (unicode_alnum : N -> bool) (url : str) :
  youtube_downloader.normalize_youtube_url unicode_alnum (youtube_downloader.normalize_youtube_url unicode_alnum url)
  = youtube_downloader.normalize_youtube_url unicode_alnum url.
Proof.
  destruct (normalize_youtube_url_shape_aux unicode_alnum url) as [E|(video_id & Hid & ->)];
    [now rewrite !E|].
  unfold youtube_downloader.normalize_youtube_url. rewrite (find_video_id_normalized _ _ Hid).
  destruct video_id; [destruct Hid; discriminate|reflexivity].
Qed.

(** What [is_youtube_url] accepts, it still accepts after
    [normalize_youtube_url]. *)
Theorem normalize_youtube_url_accepted (unicode_alnum : N -> bool) (url : str)
  (Hurl : youtube_downloader.is_youtube_url url = true) :
  youtube_downloader.is_youtube_url (youtube_downloader.normalize_youtube_url unicode_alnum url) = true.
Proof.
  destruct (normalize_youtube_url_shape_aux unicode_alnum url) as [E|(video_id & Hid & ->)];
    [now rewrite E|].
  eapply is_youtube_url_watch, Hid.
Qed.

Lemma normalize_youtube_url_accepted_witness :
  youtube_downloader.is_youtube_url (youtube_downloader.normalize_youtube_url (fun _ => false)
                    (lit "youtu.be/abcdefghijk?t=3")) = true.
Proof.
  apply (normalize_youtube_url_accepted (fun _ => false) (lit "youtu.be/abcdefghijk?t=3")).
  vm_compute. reflexivity.
Defined.

Lemma tree_induction (P : tree -> Prop) :
  (forall size, P (Reg size)) ->
  (forall target, (forall t, target = Some t -> P t) -> P (Link target)) ->
  (forall entries, Forall (fun e => P (snd e)) entries -> P (Folder entries)) ->
  forall t, P t.
Proof.
  intros HR HL HF. fix IH 1. intros [size|[t'|]|entries].
  - apply HR.
  - apply HL. intros t [= <-]. apply IH.
  - apply HL. discriminate.
  - apply HF. induction entries as [|[name t'] rest IHr]; constructor; [apply IH|exact IHr].
Qed.

Lemma add_files_acc (names : list (str * option Z)) (a : Z) :
  add_files a names = a + add_files 0 names.
Proof.
  unfold add_files. revert a. induction names as [|[name [size|]] rest IH]; intros a; cbn [fold_left snd].
  - lia.
  - rewrite (IH (a + size)), (IH (0 + size)). lia.
  - apply IH.
Qed.

Lemma add_files_app (xs ys : list (str * option Z)) :
  add_files 0 (xs ++ ys) = add_files 0 xs + add_files 0 ys.
Proof. unfold add_files. rewrite fold_left_app. apply add_files_acc. Qed.

Lemma add_triples_acc (triples : list (list (str * option Z))) (a : Z) :
  add_triples a triples = a + add_triples 0 triples.
Proof.
  unfold add_triples. revert a. induction triples as [|names rest IH]; intros a; cbn [fold_left].
  - lia.
  - rewrite (IH (add_files a names)), (IH (add_files 0 names)), (add_files_acc names a). lia.
Qed.

Lemma add_triples_app (xs ys : list (list (str * option Z))) :
  add_triples 0 (xs ++ ys) = add_triples 0 xs + add_triples 0 ys.
Proof. unfold add_triples. rewrite fold_left_app. apply add_triples_acc. Qed.

Lemma add_triples_cons (names : list (str * option Z))
  (rest : list (list (str * option Z))) :
  add_triples 0 (names :: rest) = add_files 0 names + add_triples 0 rest.
Proof.
  change (add_triples 0 (names :: rest)) with (add_triples (add_files 0 names) rest).
  apply add_triples_acc.
Qed.

Lemma add_files_one (name : str) (size : option Z) :
  add_files 0 [(name, size)] = default 0 size.
Proof. destruct size; reflexivity. Qed.

Lemma walk_size (t : tree) :
  add_triples 0 (walk t) = match t with Folder _ => tree_size t | _ => 0 end.
Proof.
  induction t as [size|target _|entries IH] using tree_induction; try reflexivity.
  cbn [walk tree_size]. rewrite add_triples_cons.
  induction IH as [|[name t] rest Ht _ IHr]; [reflexivity|].
  unfold filenames in *. cbn [flat_map fold_right snd fst] in *.
  rewrite add_files_app, add_triples_app.
  destruct t as [size|target|sub].
  - rewrite add_files_one. cbn [tree_size default from_option]. unfold id.
    change (add_triples 0 []) with 0. lia.
  - cbn [tree_size]. change (add_triples 0 []) with 0.
    destruct (isdir (Link target)); [change (add_files 0 []) with 0|rewrite add_files_one];
      cbn [default from_option]; lia.
  - rewrite Ht. change (add_files 0 []) with 0. lia.
Qed.

(** [get_directory_size] gives the sum of the sizes of the regular files
    below the directory that are reached without going through a link (the
    links themselves count for nothing), and 0 for a path that is no
    directory or does not exist. *)
Theorem get_directory_size_spec (path : option tree) :
  get_directory_size path
  = match path ≫= resolve with
    | Some (Folder entries) => tree_size (Folder entries)
    | _ => 0
    end.
Proof.
  unfold get_directory_size. cbv zeta.
  destruct (path ≫= resolve) as [top|]; [|reflexivity].
  change (add_triples 0 (walk top)
          = match top with Folder entries => tree_size (Folder entries) | _ => 0 end).
  rewrite walk_size. destruct top; reflexivity.
Qed.

(** *** The models in the cache *)

Lemma entry_cons (name name' : str) (t : tree) (rest : list (str * tree)) :
  entry name ((name', t) :: rest)
  = if str_eqb name' name then Some t else entry name rest.
Proof. unfold entry. cbn [List.find fst]. now destruct (str_eqb name' name). Qed.

Lemma entry_None (name : str) (entries : list (str * tree)) :
  ~ In name (map fst entries) -> entry name entries = None.
Proof.
  induction entries as [|[name' t] rest IH]; [reflexivity|]. cbn [map fst In]. intros H.
  rewrite entry_cons. unfold str_eqb. rewrite bool_decide_eq_false_2 by tauto.
  apply IH. tauto.
Qed.

Lemma list_loop_lookup (path_join : str -> str -> str) (format_size : Z -> str)
  (cache_dir : str) (entries : list (str * tree)) :
  NoDup (map fst entries) ->
  forall (acc : gmap str Info.t) (name : str),
    (forall n, In n (map fst entries) -> acc !! n = None) ->
    fold_left
      (fun cached_models item =>
         let item_path := path_join cache_dir (fst item) in
         if isdir (snd item) then
           if default false (node_exists <$> child (snd item) (lit "model.bin"))
              || default false (node_exists <$> child (snd item) (lit "pytorch_model.bin"))
           then
             let size := get_directory_size (Some (snd item)) in
             <[fst item := Info.mk item_path size (format_size size)]> cached_models
           else cached_models
         else cached_models)
      entries acc !! name
    = match entry name entries with
      | Some t =>
          if is_model_dir t
          then Some (info_of path_join format_size cache_dir name t)
          else None
      | None => acc !! name
      end.
Proof.
  induction entries as [|[name' t] rest IH]; intros Hnd acc name Hacc; [reflexivity|].
  cbn [map fst] in Hnd. apply NoDup_cons_iff in Hnd. destruct Hnd as [Hnot Hnd].
  cbn [fold_left fst snd]. rewrite entry_cons. cbv zeta.
  unfold is_model_dir in *.
  destruct (str_eqb name' name) eqn:En.
  - apply bool_decide_eq_true in En. subst name'.
    rewrite IH; [|assumption|].
    + rewrite (entry_None _ _ Hnot).
      destruct (isdir t); cbn [andb]; [|apply Hacc; now left].
      destruct (_ || _); [apply lookup_insert_eq|apply Hacc; now left].
    + intros n Hn.
      destruct (isdir t); [|apply Hacc; now right].
      destruct (_ || _); [|apply Hacc; now right].
      rewrite lookup_insert_ne; [apply Hacc; now right|]. intros <-. contradiction.
  - apply bool_decide_eq_false in En.
    rewrite IH; [|assumption|].
    + destruct (entry name rest); [reflexivity|].
      destruct (isdir t); [|reflexivity].
      destruct (_ || _); [|reflexivity]. now apply lookup_insert_ne.
    + intros n Hn.
      destruct (isdir t); [|apply Hacc; now right].
      destruct (_ || _); [|apply Hacc; now right].
      rewrite lookup_insert_ne; [apply Hacc; now right|]. intros <-. contradiction.
Qed.

(** For a cache directory whose entries have distinct names,
    [list_cached_models] returns a dictionary whose keys are the names of
    the directories of models (directly or through a link), each with its
    path, its size according to [get_directory_size] and that size
    formatted; every other entry is left out. *)
Theorem list_cached_models_spec (path_join : str -> str -> str) (format_size : Z -> str)
  (cache_dir : str) (root : option tree) (entries : list (str * tree))
  (Hroot : root ≫= resolve = Some (Folder entries))
  (Hnames : NoDup (map fst entries)) :
  exists cached_models,
    list_cached_models path_join format_size cache_dir root = Ok cached_models
    /\ forall name,
         cached_models !! name
         = match entry name entries with
           | Some t =>
               if is_model_dir t
               then Some (info_of path_join format_size cache_dir name t)
               else None
           | None => None
           end.
Proof.
  unfold list_cached_models. rewrite Hroot. eexists. split; [reflexivity|].
  intros name. rewrite list_loop_lookup; [|assumption|intros n _; apply lookup_empty].
  rewrite lookup_empty. reflexivity.
Qed.

Lemma list_cached_models_spec_witness :
  exists cached_models,
    list_cached_models (fun a b => a ++ lit "/" ++ b) str_of_int (lit "cache")
                       (Some (Folder demo_cache)) = Ok cached_models
    /\ forall name,
         cached_models !! name
         = match entry name demo_cache with
           | Some t =>
               if is_model_dir t
               then Some (info_of (fun a b => a ++ lit "/" ++ b) str_of_int (lit "cache") name t)
               else None
           | None => None
           end.
Proof.
  apply (list_cached_models_spec (fun a b => a ++ lit "/" ++ b) str_of_int (lit "cache")
           (Some (Folder demo_cache)) demo_cache).
  - reflexivity.
  - vm_compute. repeat constructor; cbn; intuition discriminate.
Defined.

(** *** Removing from the cache *)

Lemma resolve_set_entries (t : tree) (old entries : list (str * tree)) :
  resolve t = Some (Folder old) -> resolve (set_entries t entries) = Some (Folder entries).
Proof.
  induction t as [size|target IH|es _] using tree_induction; cbn [resolve set_entries].
  - discriminate.
  - destruct target as [t'|]; [|discriminate]. intros H. cbn [resolve]. now apply IH.
  - reflexivity.
Qed.




Lemma clear_loop_ok (items : list (str * tree)) :
  forall entries entries',
    clear_loop items entries = (entries', true) ->
    entries' = List.filter (fun e => negb (existsb (str_eqb (fst e)) (map fst items))) entries.
Proof.
  induction items as [|[name t] rest IH]; intros entries entries0; cbn [clear_loop fst snd map existsb].
  - intros [= <-]. clear. induction entries as [|e es IHe]; [reflexivity|].
    cbn [List.filter negb]. f_equal. exact IHe.
  - assert (G : clear_loop rest (remove_entry name entries) = (entries0, true) ->
                entries0 = List.filter
                  (fun e => negb (str_eqb (fst e) name || existsb (str_eqb (fst e)) (map fst rest)))
                  entries).
    { intros H. rewrite (IH _ _ H). unfold remove_entry.
      clear H. induction entries as [|e es IHe]; [reflexivity|]. cbn [List.filter].
      destruct (str_eqb (fst e) name); cbn [negb orb List.filter]; [exact IHe|].
      destruct (negb (existsb _ _)); [now rewrite IHe|exact IHe]. }
    destruct (isdir t); [|exact G]. destruct t; [discriminate|discriminate|exact G].
Qed.

Lemma clear_loop_total (items : list (str * tree)) :
  Forall (fun e => isdir (snd e) = true -> exists sub, snd e = Folder sub) items ->
  forall entries, snd (clear_loop items entries) = true.
Proof.
  induction 1 as [|[name t] rest Ht _ IH]; intros entries; cbn [clear_loop fst snd]; [reflexivity|].
  destruct (isdir t) eqn:Ed; [|apply IH].
  cbn [snd] in Ht. destruct (Ht Ed) as [sub ->]. apply IH.
Qed.

Lemma filter_out_all (entries : list (str * tree)) :
  List.filter (fun e => negb (existsb (str_eqb (fst e)) (map fst entries))) entries = [].
Proof.
  assert (G : forall names, (forall e, In e entries -> In (fst e) names) ->
    List.filter (fun e => negb (existsb (str_eqb (fst e)) names)) entries = []).
  { intros names. induction entries as [|e es IH]; intros H; [reflexivity|].
    cbn [List.filter].
    assert (E : existsb (str_eqb (fst e)) names = true).
    { apply existsb_exists. exists (fst e). split; [apply H; now left|].
      now apply bool_decide_eq_true. }
    rewrite E. cbn [negb]. apply IH. intros e' He'. apply H. now right. }
  apply G. intros e He. now apply in_map.
Qed.

(** When [clear_all_cache] returns [True] the cache directory is empty; and
    it returns [True] whenever the cache directory exists, the removal is
    forced or confirmed with "y", and no entry is a link to a directory. *)
Theorem clear_all_cache_spec (str_lower : str -> str) (root : option tree)
  (force : bool) (confirm : str) :
  let result := clear_all_cache str_lower root force confirm in
  (snd result = true -> fst result ≫= resolve = Some (Folder []))
  /\ (forall entries,
        root ≫= resolve = Some (Folder entries) ->
        confirmed str_lower force confirm = true ->
        Forall (fun e => isdir (snd e) = true -> exists sub, snd e = Folder sub) entries ->
        snd result = true)
  /\ (root ≫= resolve = None -> result = (root, false)).
Proof.
  cbv zeta. unfold clear_all_cache.
  destruct root as [t|]; cbn [mbind option_bind].
  2:{ split; [discriminate|]. split; [discriminate|reflexivity]. }
  destruct (resolve t) as [top|] eqn:Er.
  2:{ split; [discriminate|]. split; [discriminate|reflexivity]. }
  destruct (confirmed str_lower force confirm); cbn [negb].
  2:{ split; [discriminate|]. split; [discriminate|discriminate]. }
  destruct top as [size|target|entries];
    try (split; [discriminate|]; split; [discriminate|discriminate]).
  cbn [fst snd]. split; [|split; [|discriminate]].
  - intros Hok. cbn [mbind option_bind]. rewrite (resolve_set_entries _ _ _ Er).
    destruct (clear_loop entries entries) as [entries' ok] eqn:E. cbn [fst snd] in *. subst ok.
    apply clear_loop_ok in E. rewrite E, filter_out_all. reflexivity.
  - intros es [= <-] _ Hall. now apply clear_loop_total.
Qed.
